(** * RSA-OAEP padding and SM2 signatures of libcrypto, embedded in Rocq

    Sources embedded here:
    - [src/lib/libcrypto/rsa/rsa_oaep.c]: [PKCS1_MGF1],
      [RSA_padding_add_PKCS1_OAEP_mgf1], [RSA_padding_check_PKCS1_OAEP_mgf1]
      and the plain entry points [RSA_padding_add_PKCS1_OAEP],
      [RSA_padding_check_PKCS1_OAEP];
    - [src/lib/libcrypto/sm2/sm2_sign.c]: [SM2_compute_msg_hash],
      [SM2_sig_gen], [SM2_sig_verify], [SM2_do_sign], [SM2_do_verify],
      [SM2_sign], [SM2_verify].

    Conventions.  A C [int]/[long] length is a [Z] (lengths stay far from
    the limits of the C types); an [unsigned char] is a [Z] in [0, 256),
    and a buffer passed as pointer plus length is the list of its bytes
    (the length argument is the length of the list).  A BIGNUM is its
    value in [Z].  A call whose failure the source tests and which can
    fail on its arguments (digest, [malloc] of the work buffers of the
    padding, random source, modular inverse, zero modulus, affine
    coordinates of the point at infinity) returns an [option].  The
    allocation of BIGNUMs, points, signatures and contexts in sm2_sign.c
    ([BN_CTX_new], [BN_CTX_get], [EC_POINT_new], [ECDSA_SIG_new],
    [BN_bin2bn], ...) is taken to succeed, so that the returns with
    [ERR_R_MALLOC_FAILURE] are left out and [BN_add], [BN_sub] and
    [EC_POINT_mul] are total;
    [freezero] and the other releases leave no trace. *)

From Stdlib Require Import ZArith List Lia Bool Setoid Morphisms.
Import ListNotations.
Local Open Scope Z_scope.

(* ================================================================== *)
(** ** Part I.  Definitions                                            *)
(* ================================================================== *)

(** *** Buffers *)

(** [memcpy(buf + off, data, |data|)]: overwrite in place. *)
Definition store (buf : list Z) (off : Z) (data : list Z) : list Z :=
  firstn (Z.to_nat off) buf ++ data
    ++ skipn (Z.to_nat off + length data) buf.

(** The [len] bytes at [buf + off]. *)
Definition load (buf : list Z) (off len : Z) : list Z :=
  firstn (Z.to_nat len) (skipn (Z.to_nat off) buf).

(** [memset(buf + off, c, n)]. *)
Definition memset (buf : list Z) (off c n : Z) : list Z :=
  store buf off (repeat c (Z.to_nat n)).

(** [for (i = 0; i < n; i++) a[i] ^= b[i];] *)
Fixpoint xor_loop (n : nat) (a b : list Z) : list Z :=
  match n, a, b with
  | S n', x :: a', y :: b' => Z.lxor x y :: xor_loop n' a' b'
  | _, _, _ => a
  end.

(** Modelled from the spec: the ConstantTimeUtils collaborator's
    [ct_equal]; libc's [timingsafe_memcmp] is missing from src/.
    [timingsafe_memcmp(a, b, n)] is the sign of the first difference among
    the first [n] bytes, 0 when there is none. *)
Fixpoint timingsafe_memcmp (a b : list Z) (n : nat) : Z :=
  match n, a, b with
  | S n', x :: a', y :: b' =>
      if x <? y then -1
      else if y <? x then 1
      else timingsafe_memcmp a' b' n'
  | _, _, _ => 0
  end.

(** *** Message digests *)

(** An [EVP_MD]: its digest size and its one-shot digest.  [EVP_Digest]
    is [None] when the library call returns 0. *)
Record EVP_MD : Type := {
  EVP_MD_size : Z;
  EVP_Digest : list Z -> option (list Z)
}.

(** The streaming interface used by [PKCS1_MGF1]: the context accumulates
    the data and the digest is taken at [EVP_DigestFinal_ex]. *)
Definition EVP_DigestInit_ex : list Z := [].
Definition EVP_DigestUpdate (c data : list Z) : list Z := c ++ data.
Definition EVP_DigestFinal_ex (dgst : EVP_MD) (c : list Z) : option (list Z) :=
  EVP_Digest dgst c.

(** A digest that behaves: it never fails and writes [EVP_MD_size] bytes. *)
Definition md_ok (dgst : EVP_MD) : Prop :=
  0 < EVP_MD_size dgst /\
  forall x, exists d,
    EVP_Digest dgst x = Some d /\ Z.of_nat (length d) = EVP_MD_size dgst.

(** A digest that, when it succeeds, writes [EVP_MD_size] bytes. *)
Definition md_wf (dgst : EVP_MD) : Prop :=
  forall x d,
    EVP_Digest dgst x = Some d -> Z.of_nat (length d) = EVP_MD_size dgst.

(** *** MGF1 (rsa_oaep.c, PKCS1_MGF1) *)

(** The four counter bytes [cnt[0..3]] of iteration [i]. *)
Definition mgf1_cnt (i : Z) : list Z :=
  [ Z.land (Z.shiftr i 24) 255;
    Z.land (Z.shiftr i 16) 255;
    Z.land (Z.shiftr i 8 mod 256) 255;
    Z.land i 255 ].

(** The loop [for (i = 0; outlen < len; i++)].  [mask] is what has been
    written to the mask buffer so far.  The result is [(rv, mask)];
    [None] when [fuel] iterations were not enough. *)
Fixpoint PKCS1_MGF1_loop (fuel : nat) (dgst : EVP_MD) (seed : list Z)
    (len i outlen : Z) (mask : list Z) : option (Z * list Z) :=
  if outlen <? len then
    match fuel with
    | O => None
    | S fuel' =>
        let c := EVP_DigestUpdate
                   (EVP_DigestUpdate EVP_DigestInit_ex seed) (mgf1_cnt i) in
        let mdlen := EVP_MD_size dgst in
        match EVP_DigestFinal_ex dgst c with
        | None => Some (-1, mask)
        | Some md =>
            if outlen + mdlen <=? len then
              PKCS1_MGF1_loop fuel' dgst seed len (i + 1) (outlen + mdlen)
                (mask ++ md)
            else
              PKCS1_MGF1_loop fuel' dgst seed len (i + 1) len
                (mask ++ firstn (Z.to_nat (len - outlen)) md)
        end
    end
  else Some (0, mask).

Definition PKCS1_MGF1 (fuel : nat) (len : Z) (seed : list Z) (dgst : EVP_MD)
    : option (Z * list Z) :=
  if EVP_MD_size dgst <? 0 then Some (-1, [])
  else PKCS1_MGF1_loop fuel dgst seed len 0 0 [].

(** The hash function of a digest descriptor ([[]] where it fails). *)
Definition digest_of (dgst : EVP_MD) (x : list Z) : list Z :=
  match EVP_Digest dgst x with Some d => d | None => [] end.

(** MGF1 as the specification words it: [I2OSP], the hash blocks
    [T_0 || T_1 || ...] and their truncation to [len] bytes. *)
Fixpoint I2OSP (x : Z) (xLen : nat) : list Z :=
  match xLen with
  | O => []
  | S n => I2OSP (x / 256) n ++ [x mod 256]
  end.

Fixpoint OS2IP_acc (acc : Z) (l : list Z) : Z :=
  match l with
  | [] => acc
  | b :: l' => OS2IP_acc (acc * 256 + b) l'
  end.

Definition OS2IP (l : list Z) : Z := OS2IP_acc 0 l.

Definition mgf1_blocks (H : list Z -> list Z) (seed : list Z) (count : nat)
    : list Z :=
  concat (map (fun i => H (seed ++ I2OSP (Z.of_nat i) 4)) (seq 0 count)).

Definition mgf1_spec (H : list Z -> list Z) (hLen : Z) (seed : list Z)
    (len : Z) : list Z :=
  firstn (Z.to_nat len)
    (mgf1_blocks H seed (Z.to_nat ((len + hLen - 1) / hLen))).

(** *** OAEP padding (rsa_oaep.c) *)

(** The reason codes handed to [RSAerror] in this file. *)
Inductive RSA_reason : Type :=
  | RSA_R_DATA_TOO_LARGE_FOR_KEY_SIZE
  | RSA_R_KEY_SIZE_TOO_SMALL
  | RSA_R_OAEP_DECODING_ERROR
  | RSA_R_DATA_TOO_LARGE
  | ERR_R_MALLOC_FAILURE.

(** What a padding call leaves behind: its return value, the reason it put
    on the error queue (at most one) and the bytes of the caller's [to]
    buffer. *)
Record padding_result : Type := {
  ret : Z;
  reason : option RSA_reason;
  to_after : list Z
}.

(** The scan [for (i = mdlen; i < dblen; i++) if (db[i] != 0x00) break;]
    with [n] iterations left; the result is the final [i]. *)
Fixpoint scan_zeros (n : nat) (db : list Z) (i : Z) : Z :=
  match n with
  | O => i
  | S n' =>
      if negb (nth (Z.to_nat i) db 0 =? 0) then i
      else scan_zeros n' db (i + 1)
  end.

Section OAEP.

(** [EVP_sha1()], the digest used when [md] is [NULL]. *)
Variable EVP_sha1 : EVP_MD.
(** Whether [malloc(n)] returns a buffer. *)
Variable malloc : Z -> bool.

(** [RSA_padding_add_PKCS1_OAEP_mgf1(to, tlen, from, flen, param, plen,
    md, mgf1md)].  [entropy] is what [arc4random_buf] delivers.  [None]
    when an MGF1 call does not return within [fuel] iterations. *)
Definition RSA_padding_add_PKCS1_OAEP_mgf1 (fuel : nat) (entropy : list Z)
    (to from param : list Z) (md mgf1md : option EVP_MD)
    : option padding_result :=
  let tlen := Z.of_nat (length to) in
  let flen := Z.of_nat (length from) in
  let emlen := tlen - 1 in
  let md := match md with Some m => m | None => EVP_sha1 end in
  let mgf1md := match mgf1md with Some m => m | None => md end in
  let mdlen := EVP_MD_size md in
  if flen >? emlen - 2 * mdlen - 1 then
    Some {| ret := 0; reason := Some RSA_R_DATA_TOO_LARGE_FOR_KEY_SIZE;
            to_after := to |}
  else if emlen <? 2 * mdlen + 1 then
    Some {| ret := 0; reason := Some RSA_R_KEY_SIZE_TOO_SMALL;
            to_after := to |}
  else
    let to := store to 0 [0] in
    let seed := 1 in
    let db := mdlen + 1 in
    match EVP_Digest md param with
    | None => Some {| ret := 0; reason := None; to_after := to |}
    | Some lhash =>
        let to := store to db lhash in
        let to := memset to (db + mdlen) 0 (emlen - flen - 2 * mdlen - 1) in
        let to := store to (db + (emlen - flen - mdlen - 1)) [1] in
        let to := store to (db + (emlen - flen - mdlen)) from in
        let to := store to seed (firstn (Z.to_nat mdlen) entropy) in
        let dbmasklen := emlen - mdlen in
        if negb (malloc dbmasklen) then
          Some {| ret := 0; reason := Some ERR_R_MALLOC_FAILURE;
                  to_after := to |}
        else
          match PKCS1_MGF1 fuel dbmasklen (load to seed mdlen) mgf1md with
          | None => None
          | Some (rv, dbmask) =>
              if rv <? 0 then
                Some {| ret := 0; reason := None; to_after := to |}
              else
                let to :=
                  store to db
                    (xor_loop (Z.to_nat dbmasklen) (load to db dbmasklen)
                       dbmask) in
                match PKCS1_MGF1 fuel mdlen (load to db dbmasklen) mgf1md
                with
                | None => None
                | Some (rv, seedmask) =>
                    if rv <? 0 then
                      Some {| ret := 0; reason := None; to_after := to |}
                    else
                      let to :=
                        store to seed
                          (xor_loop (Z.to_nat mdlen) (load to seed mdlen)
                             seedmask) in
                      Some {| ret := 1; reason := None; to_after := to |}
                end
          end
    end.

(** The label [decoding_err:] of the decoder. *)
Definition decoding_err (to : list Z) : padding_result :=
  {| ret := -1; reason := Some RSA_R_OAEP_DECODING_ERROR; to_after := to |}.

(** The label [err:] of the decoder. *)
Definition err (to : list Z) : padding_result :=
  {| ret := -1; reason := None; to_after := to |}.

(** [RSA_padding_check_PKCS1_OAEP_mgf1(to, tlen, from, flen, num, param,
    plen, md, mgf1md)].  The allocated buffer is kept as its two parts,
    [db] (the first [dblen] bytes) and [padded_from] (the other [num]
    bytes). *)
Definition RSA_padding_check_PKCS1_OAEP_mgf1 (fuel : nat)
    (to from : list Z) (num : Z) (param : list Z)
    (md mgf1md : option EVP_MD) : option padding_result :=
  let tlen := Z.of_nat (length to) in
  let flen := Z.of_nat (length from) in
  let md := match md with Some m => m | None => EVP_sha1 end in
  let mgf1md := match mgf1md with Some m => m | None => md end in
  let mdlen := EVP_MD_size md in
  let num := num - 1 in
  if num <? 2 * mdlen + 1 then Some (decoding_err to)
  else
    let lzero := num - flen in
    let '(bad, lzero, flen) :=
      if lzero <? 0 then (true, 0, num) else (false, lzero, flen) in
    let dblen := num - mdlen in
    if negb (malloc (dblen + num)) then
      Some {| ret := -1; reason := Some ERR_R_MALLOC_FAILURE;
              to_after := to |}
    else
      let padded_from := repeat 0 (Z.to_nat lzero) ++ load from 0 flen in
      let maskeddb := load padded_from mdlen dblen in
      match PKCS1_MGF1 fuel mdlen maskeddb mgf1md with
      | None => None
      | Some (rv, seed) =>
          if negb (rv =? 0) then Some (err to)
          else
            let seed := xor_loop (Z.to_nat mdlen) seed padded_from in
            match PKCS1_MGF1 fuel dblen seed mgf1md with
            | None => None
            | Some (rv, db) =>
                if negb (rv =? 0) then Some (err to)
                else
                  let db := xor_loop (Z.to_nat dblen) db maskeddb in
                  match EVP_Digest md param with
                  | None => Some (err to)
                  | Some phash =>
                      if negb (timingsafe_memcmp db phash (Z.to_nat mdlen)
                                 =? 0) || bad
                      then Some (decoding_err to)
                      else
                        let i :=
                          scan_zeros (Z.to_nat (dblen - mdlen)) db mdlen in
                        if (i =? dblen)
                           || negb (nth (Z.to_nat i) db 0 =? 1)
                        then Some (decoding_err to)
                        else
                          let i := i + 1 in
                          let mlen := dblen - i in
                          if tlen <? mlen then
                            Some {| ret := -1;
                                    reason := Some RSA_R_DATA_TOO_LARGE;
                                    to_after := to |}
                          else
                            Some {| ret := mlen; reason := None;
                                    to_after := store to 0 (load db i mlen) |}
                  end
            end
      end.

End OAEP.

(** *** OAEP as the specification words it *)

(** [a XOR b] on octet strings. *)
Definition xor_bytes (a b : list Z) : list Z :=
  map (fun p => Z.lxor (fst p) (snd p)) (combine a b).

(** Section 4.2, construction: [EM = 0x00 || maskedSeed || maskedDB]. *)
Definition oaep_encode_spec (hash mgf_hash : EVP_MD)
    (msg label seed : list Z) (emLen : Z) : list Z :=
  let hLen := EVP_MD_size hash in
  let mLen := Z.of_nat (length msg) in
  let mgf1 := mgf1_spec (digest_of mgf_hash) (EVP_MD_size mgf_hash) in
  let lHash := digest_of hash label in
  let PS := repeat 0 (Z.to_nat (emLen - mLen - 2 * hLen - 2)) in
  let DB := lHash ++ PS ++ [1] ++ msg in
  let dbMask := mgf1 seed (emLen - hLen - 1) in
  let maskedDB := xor_bytes DB dbMask in
  let seedMask := mgf1 maskedDB hLen in
  let maskedSeed := xor_bytes seed seedMask in
  [0] ++ maskedSeed ++ maskedDB.

(** Section 4.3, step 2: the ciphertext zero-padded (or cut) to
    [emLen_modulus - 1] bytes. *)
Definition oaep_pad (em : list Z) (emLen_modulus : Z) : list Z :=
  let lzero := emLen_modulus - 1 - Z.of_nat (length em) in
  if lzero <? 0 then firstn (Z.to_nat (emLen_modulus - 1)) em
  else repeat 0 (Z.to_nat lzero) ++ em.

(** Section 4.3, steps 3 to 5: the data block [DB] behind the masks. *)
Definition oaep_DB (hash mgf_hash : EVP_MD) (buf : list Z)
    (emLen_modulus : Z) : list Z :=
  let hLen := EVP_MD_size hash in
  let dbLen := emLen_modulus - 1 - hLen in
  let mgf1 := mgf1_spec (digest_of mgf_hash) (EVP_MD_size mgf_hash) in
  let maskedSeed := firstn (Z.to_nat hLen) buf in
  let maskedDB := firstn (Z.to_nat dbLen) (skipn (Z.to_nat hLen) buf) in
  let seed := xor_bytes maskedSeed (mgf1 maskedDB hLen) in
  xor_bytes maskedDB (mgf1 seed dbLen).

(** Section 4.3, step 7: the position of the first nonzero byte. *)
Fixpoint first_nonzero (l : list Z) : option nat :=
  match l with
  | [] => None
  | x :: l' => if x =? 0 then option_map S (first_nonzero l') else Some O
  end.

(** **** A small digest to run the padding on *)

(** A two-byte checksum: the exclusive or and the sum of the bytes. *)
Definition toy_digest (x : list Z) : list Z :=
  [ fold_left Z.lxor x 90; fold_left (fun a b => (a + b) mod 256) x 0 ].

Definition toy_md : EVP_MD :=
  {| EVP_MD_size := 2; EVP_Digest := fun x => Some (toy_digest x) |}.

(** *** BIGNUM arithmetic used by SM2 *)

(** Modelled from the spec: the BigInt collaborator's [cmp]; [BN_cmp] is
    missing from src/.  [BN_cmp(a, b)] is -1, 0 or 1. *)
Definition BN_cmp (a b : Z) : Z :=
  match a ?= b with Lt => -1 | Eq => 0 | Gt => 1 end.

(** Modelled from the spec: the BigInt collaborator's [is_zero];
    [BN_is_zero] is missing from src/. *)
Definition BN_is_zero (a : Z) : bool := a =? 0.

Definition BN_value_one : Z := 1.

(** Modelled from the spec: the BigInt collaborator's modular reduction;
    [BN_nnmod] is missing from src/.  [BN_nnmod(r, a, m)] is the remainder
    in [[0, |m|)]; it fails on a zero modulus. *)
Definition BN_nnmod (a m : Z) : option Z :=
  if m =? 0 then None else Some (a mod Z.abs m).

(** Modelled from the spec: the BigInt collaborator's [mod_add] and
    [mod_mul]; [BN_mod_add] and [BN_mod_mul] are missing from src/. *)
Definition BN_mod_add (a b m : Z) : option Z := BN_nnmod (a + b) m.

Definition BN_mod_mul (a b m : Z) : option Z := BN_nnmod (a * b) m.

(** Euclid's algorithm on [(r0, r1)], carrying [s0], [s1] with
    [r_i = s_i * a (mod n)]. *)
Fixpoint egcd (fuel : nat) (r0 r1 s0 s1 : Z) : Z * Z :=
  match fuel with
  | O => (r0, s0)
  | S fuel' =>
      if r1 =? 0 then (r0, s0)
      else egcd fuel' r1 (r0 mod r1) s1 (s0 - r0 / r1 * s1)
  end.

(** Modelled from the spec: the BigInt collaborator's [mod_inverse];
    [BN_mod_inverse(r, a, n)] is missing from src/.  It yields the inverse
    in [[0, n)] and fails when there is none. *)
Definition BN_mod_inverse (a n : Z) : option Z :=
  if n <=? 0 then None
  else
    let '(g, s) :=
      egcd (S (2 * Z.to_nat (Z.log2 n) + 2)) n (a mod n) 0 1 in
    if g =? 1 then Some (s mod n) else None.

(** *** Elliptic-curve groups, keys and signatures *)

(** What SM2 needs of an [EC_GROUP]: its points, [EC_GROUP_get_order]
    ([None] when the call fails), [EC_POINT_mul(group, r, n, q, m, ctx)]
    computing [r = n * G + m * q] (without [q] and [m] when they are
    [NULL]), the test for the point at infinity and the affine
    x-coordinate of a finite point. *)
Record EC_GROUP : Type := {
  EC_POINT : Type;
  EC_GROUP_get_order : option Z;
  EC_POINT_mul : Z -> option (EC_POINT * Z) -> EC_POINT;
  EC_POINT_is_at_infinity : EC_POINT -> bool;
  EC_POINT_affine_x : EC_POINT -> Z
}.

(** The laws of a cyclic group of order [n] generated by [G], in terms of
    [EC_POINT_mul]: [a * G] depends on [a] modulo [n] only, and
    [s * G + t * (d * G) = (s + t * d) * G]. *)
Record EC_GROUP_laws (group : EC_GROUP) (n : Z) : Prop := {
  EC_POINT_mul_mod : forall a b,
    a mod n = b mod n ->
    EC_POINT_mul group a None = EC_POINT_mul group b None;
  EC_POINT_mul_add : forall s t d,
    EC_POINT_mul group s (Some (EC_POINT_mul group d None, t))
    = EC_POINT_mul group (s + t * d) None
}.

(** Modelled from the spec: "affine-coordinate extraction (x, y) of a
    non-identity point"; [EC_POINT_get_affine_coordinates_GFp] is missing
    from src/.  The call fails on the point at infinity; only [x] is asked
    for here. *)
Definition EC_POINT_get_affine_coordinates_GFp (group : EC_GROUP)
    (p : EC_POINT group) : option Z :=
  if EC_POINT_is_at_infinity group p then None
  else Some (EC_POINT_affine_x group p).

Record EC_KEY : Type := {
  EC_KEY_get0_group : EC_GROUP;
  EC_KEY_get0_private_key : Z;
  EC_KEY_get0_public_key : EC_POINT EC_KEY_get0_group
}.

Record ECDSA_SIG : Type := { sig_r : Z; sig_s : Z }.

(** The reason codes handed to [SM2error] in sm2_sign.c. *)
Inductive SM2_reason : Type :=
  | ERR_R_EC_LIB
  | ERR_R_BN_LIB
  | ERR_R_EVP_LIB
  | SM2_R_RANDOM_NUMBER_GENERATION_FAILED
  | SM2_R_BAD_SIGNATURE
  | SM2_R_DIGEST_FAILURE.

(** *** The random source *)

(** The answers the random source will give to the successive calls
    [BN_rand_range(k, range)], each as a function of [range]; [None] is a
    call that returns 0. *)
Definition RNG : Type := list (Z -> option Z).

(** Modelled from the spec: "uniform sampling in [0, n)"; [BN_rand_range]
    is missing from src/.  Every number it yields lies in [[0, range)]. *)
Definition rand_ok (rng : RNG) : Prop :=
  Forall (fun draw : Z -> option Z =>
            forall range k, draw range = Some k -> 0 <= k < range) rng.

(** The call that answers [k], for the ranges that contain it. *)
Definition answer (k range : Z) : option Z :=
  if (0 <=? k) && (k <? range) then Some k else None.

(** *** SM2 signature generation (sm2_sign.c, SM2_sig_gen) *)

(** How one turn of the loop [for (;;)] ends. *)
Inductive iter_result : Type :=
  | Retry                              (* [continue] *)
  | Signed (sig : ECDSA_SIG)           (* [break] with [sig] set *)
  | Failed (reason : SM2_reason).      (* [goto done] with [sig == NULL] *)

(** The loop body after [BN_rand_range] has filled [k]. *)
Definition SM2_sig_gen_iter (key : EC_KEY) (order e k : Z) : iter_result :=
  let dA := EC_KEY_get0_private_key key in
  let group := EC_KEY_get0_group key in
  let kG := EC_POINT_mul group k None in
  match EC_POINT_get_affine_coordinates_GFp group kG with
  | None => Failed ERR_R_EC_LIB
  | Some x1 =>
      match BN_mod_add e x1 order with
      | None => Failed ERR_R_BN_LIB
      | Some r =>
          (* try again if r == 0 or r+k == n *)
          if BN_is_zero r then Retry
          else
            let rk := r + k in
            if BN_cmp rk order =? 0 then Retry
            else
              let s := dA + BN_value_one in
              match BN_mod_inverse s order with
              | None => Failed ERR_R_BN_LIB
              | Some s =>
                  match BN_mod_mul dA r order with
                  | None => Failed ERR_R_BN_LIB
                  | Some tmp =>
                      let tmp := k - tmp in
                      match BN_mod_mul s tmp order with
                      | None => Failed ERR_R_BN_LIB
                      | Some s => Signed {| sig_r := r; sig_s := s |}
                      end
                  end
              end
      end
  end.

(** One turn of the loop, from the call of [BN_rand_range(k, order)]. *)
Definition SM2_sig_gen_step (key : EC_KEY) (order e : Z)
    (draw : Z -> option Z) : iter_result :=
  match draw order with
  | None => Failed SM2_R_RANDOM_NUMBER_GENERATION_FAILED
  | Some k => SM2_sig_gen_iter key order e k
  end.

(** What a run of the generator over the recorded answers of the random
    source amounts to: it returned a signature, it returned [NULL] with a
    reason, or it is still in the loop when the answers run out. *)
Inductive sig_gen_result : Type :=
  | Sig (sig : ECDSA_SIG)
  | Null (reason : SM2_reason)
  | Looping.

(** The loop [for (;;)]; the second component is what is left of the
    random source. *)
Fixpoint SM2_sig_gen_loop (key : EC_KEY) (order e : Z) (rng : RNG)
    : sig_gen_result * RNG :=
  match rng with
  | [] => (Looping, [])
  | draw :: rng' =>
      match SM2_sig_gen_step key order e draw with
      | Retry => SM2_sig_gen_loop key order e rng'
      | Signed sig => (Sig sig, rng')
      | Failed reason => (Null reason, rng')
      end
  end.

Definition SM2_sig_gen (key : EC_KEY) (e : Z) (rng : RNG)
    : sig_gen_result * RNG :=
  let group := EC_KEY_get0_group key in
  match EC_GROUP_get_order group with
  | None => (Null ERR_R_EC_LIB, rng)
  | Some order => SM2_sig_gen_loop key order e rng
  end.

(** *** SM2 signature verification (sm2_sign.c, SM2_sig_verify) *)

(** The return value and the reason put on the error queue, if any. *)
Definition SM2_sig_verify (key : EC_KEY) (sig : ECDSA_SIG) (e : Z)
    : Z * option SM2_reason :=
  let group := EC_KEY_get0_group key in
  match EC_GROUP_get_order group with
  | None => (0, Some ERR_R_EC_LIB)
  | Some order =>
      let r := sig_r sig in
      let s := sig_s sig in
      if (BN_cmp r BN_value_one <? 0) || (BN_cmp s BN_value_one <? 0) then
        (0, Some SM2_R_BAD_SIGNATURE)
      else if (BN_cmp order r <=? 0) || (BN_cmp order s <=? 0) then
        (0, Some SM2_R_BAD_SIGNATURE)
      else
        match BN_mod_add r s order with
        | None => (0, Some ERR_R_BN_LIB)
        | Some t =>
            if BN_is_zero t then (0, Some SM2_R_BAD_SIGNATURE)
            else
              let pt :=
                EC_POINT_mul group s
                  (Some (EC_KEY_get0_public_key key, t)) in
              match EC_POINT_get_affine_coordinates_GFp group pt with
              | None => (0, Some ERR_R_EC_LIB)
              | Some x1 =>
                  match BN_mod_add e x1 order with
                  | None => (0, Some ERR_R_BN_LIB)
                  | Some t =>
                      if BN_cmp r t =? 0 then (1, None) else (0, None)
                  end
              end
        end
  end.

(** *** Signing and verifying a message (SM2_do_sign, SM2_do_verify) *)

Section SM2_message.

(** [SM2_compute_userid_digest(za, digest, user_id, key)] of the ZA
    collaborator: the [md_size] bytes of ZA, [None] when it returns 0. *)
Variable SM2_compute_userid_digest :
  EVP_MD -> list Z -> EC_KEY -> option (list Z).

(** [SM2_compute_msg_hash]: [e = H(ZA || M)] as a number, or [NULL] with
    the reason it reported. *)
Definition SM2_compute_msg_hash (digest : EVP_MD) (key : EC_KEY)
    (user_id msg : list Z) : Z + SM2_reason :=
  let md_size := EVP_MD_size digest in
  match SM2_compute_userid_digest digest user_id key with
  | None => inr SM2_R_DIGEST_FAILURE
  | Some za =>
      let hash := EVP_DigestInit_ex in
      let hash := EVP_DigestUpdate hash (load za 0 md_size) in
      let hash := EVP_DigestUpdate hash msg in
      (* reuse za buffer to hold H(ZA || M) *)
      match EVP_DigestFinal_ex digest hash with
      | None => inr ERR_R_EVP_LIB
      | Some za => inl (OS2IP (load za 0 md_size))
      end
  end.

Definition SM2_do_sign (key : EC_KEY) (digest : EVP_MD)
    (user_id msg : list Z) (rng : RNG) : sig_gen_result * RNG :=
  match SM2_compute_msg_hash digest key user_id msg with
  | inr _ => (Null SM2_R_DIGEST_FAILURE, rng)
  | inl e => SM2_sig_gen key e rng
  end.

Definition SM2_do_verify (key : EC_KEY) (digest : EVP_MD) (sig : ECDSA_SIG)
    (user_id msg : list Z) : Z :=
  match SM2_compute_msg_hash digest key user_id msg with
  | inr _ => -1
  | inl e => fst (SM2_sig_verify key sig e)
  end.

End SM2_message.

(** *** Short Weierstrass curves over a prime field, to run SM2 on *)

Inductive ec_point : Type :=
  | ec_inf
  | ec_aff (x y : Z).

(** [y^2 = x^3 + a x + b] over [GF(p)], with base point [G] of order [n]. *)
Record curve : Type := {
  curve_p : Z;
  curve_a : Z;
  curve_b : Z;
  curve_G : ec_point;
  curve_n : Z
}.

Definition fp_inv (p a : Z) : Z :=
  match BN_mod_inverse a p with Some x => x | None => 0 end.

Definition ec_add (c : curve) (P Q : ec_point) : ec_point :=
  let p := curve_p c in
  match P, Q with
  | ec_inf, _ => Q
  | _, ec_inf => P
  | ec_aff x1 y1, ec_aff x2 y2 =>
      if x1 =? x2 then
        if (y1 + y2) mod p =? 0 then ec_inf
        else
          let l := ((3 * x1 * x1 + curve_a c) * fp_inv p (2 * y1)) mod p in
          let x3 := (l * l - 2 * x1) mod p in
          ec_aff x3 ((l * (x1 - x3) - y1) mod p)
      else
        let l := ((y2 - y1) * fp_inv p (x2 - x1)) mod p in
        let x3 := (l * l - x1 - x2) mod p in
        ec_aff x3 ((l * (x1 - x3) - y1) mod p)
  end.

Definition ec_neg (c : curve) (P : ec_point) : ec_point :=
  match P with
  | ec_inf => ec_inf
  | ec_aff x y => ec_aff x ((- y) mod curve_p c)
  end.

Fixpoint ec_mul_pos (c : curve) (k : positive) (P : ec_point) : ec_point :=
  match k with
  | xH => P
  | xO k' => let Q := ec_mul_pos c k' P in ec_add c Q Q
  | xI k' => let Q := ec_mul_pos c k' P in ec_add c (ec_add c Q Q) P
  end.

Definition ec_mul (c : curve) (k : Z) (P : ec_point) : ec_point :=
  match k with
  | Z0 => ec_inf
  | Zpos k' => ec_mul_pos c k' P
  | Zneg k' => ec_neg c (ec_mul_pos c k' P)
  end.

Definition curve_group (c : curve) : EC_GROUP :=
  {| EC_POINT := ec_point;
     EC_GROUP_get_order := if curve_n c =? 0 then None else Some (curve_n c);
     EC_POINT_mul := fun n q =>
       ec_add c (ec_mul c n (curve_G c))
         match q with
         | Some (Q, m) => ec_mul c m Q
         | None => ec_inf
         end;
     EC_POINT_is_at_infinity := fun P =>
       match P with ec_inf => true | ec_aff _ _ => false end;
     EC_POINT_affine_x := fun P =>
       match P with ec_inf => 0 | ec_aff x _ => x end |}.

(** The key [dA] on curve [c], with its public point [PA = dA * G]. *)
Definition curve_key (c : curve) (dA : Z) : EC_KEY :=
  {| EC_KEY_get0_group := curve_group c;
     EC_KEY_get0_private_key := dA;
     EC_KEY_get0_public_key := ec_mul c dA (curve_G c) |}.

(** [y^2 = x^3 + 2 x + 2] over [GF(17)]: 19 points, generated by (5, 1). *)
Definition toy_curve : curve :=
  {| curve_p := 17; curve_a := 2; curve_b := 2;
     curve_G := ec_aff 5 1; curve_n := 19 |}.

Definition toy_key : EC_KEY := curve_key toy_curve 2.

(** The curve sm2p256v1 and the key of the specification's test vector,
    with the public key published for it. *)
Definition sm2p256v1 : curve :=
  {| curve_p :=
       0xFFFFFFFEFFFFFFFFFFFFFFFFFFFFFFFFFFFFFFFF00000000FFFFFFFFFFFFFFFF;
     curve_a :=
       0xFFFFFFFEFFFFFFFFFFFFFFFFFFFFFFFFFFFFFFFF00000000FFFFFFFFFFFFFFFC;
     curve_b :=
       0x28E9FA9E9D9F5E344D5A9E4BCF6509A7F39789F515AB8F92DDBCBD414D940E93;
     curve_G :=
       ec_aff
         0x32C4AE2C1F1981195F9904466A39C9948FE30BBFF2660BE1715A4589334C74C7
         0xBC3736A2F4F6779C59BDCEE36B692153D0A9877CC62A474002DF32E52139F0A0;
     curve_n :=
       0xFFFFFFFEFFFFFFFFFFFFFFFFFFFFFFFF7203DF6B21C6052B53BBF40939D54123 |}.

Definition sm2_test_key : EC_KEY :=
  {| EC_KEY_get0_group := curve_group sm2p256v1;
     EC_KEY_get0_private_key :=
       0x3945208F7B2144B13F36E38AC6D39F95889393692860B51A42FB81EF4DF7C5B8;
     EC_KEY_get0_public_key :=
       ec_aff
         0x09F9DF311E5421A150DD7D161E4BC5C672179FAD1833FC076BB08FF356F35020
         0xCCEA490CE26775A52DC6EA718CC1AA600AED05FBF35E084A6632F6072DA9AD13 |}.

(** Whether a point satisfies the equation of the curve. *)
Definition on_curve (c : curve) (P : ec_point) : bool :=
  match P with
  | ec_inf => true
  | ec_aff x y =>
      (y * y - (x * x * x + curve_a c * x + curve_b c)) mod curve_p c =? 0
  end.

(** The points [0 * G, 1 * G, ..., 18 * G] of the toy curve. *)
Definition toy_point (i : Z) : ec_point :=
  ec_mul toy_curve i (curve_G toy_curve).

Definition toy_scalars : list Z := map Z.of_nat (seq 0 19).

Definition ec_eqb (P Q : ec_point) : bool :=
  match P, Q with
  | ec_inf, ec_inf => true
  | ec_aff x1 y1, ec_aff x2 y2 => (x1 =? x2) && (y1 =? y2)
  | _, _ => false
  end.

(** A stand-in for the ZA collaborator: the digest of the identity and
    the x-coordinate of the public key. *)
Definition toy_userid_digest (digest : EVP_MD) (user_id : list Z)
    (key : EC_KEY) : option (list Z) :=
  EVP_Digest digest
    (user_id ++ [EC_POINT_affine_x _ (EC_KEY_get0_public_key key)]).

(** *** The plain OAEP entry points (rsa_oaep.c) *)

Section OAEP_plain.

Variable EVP_sha1 : EVP_MD.
Variable malloc : Z -> bool.

(** [RSA_padding_add_PKCS1_OAEP]: both digests are [NULL]. *)
Definition RSA_padding_add_PKCS1_OAEP (fuel : nat) (entropy : list Z)
    (to from param : list Z) : option padding_result :=
  RSA_padding_add_PKCS1_OAEP_mgf1 EVP_sha1 malloc fuel entropy to from param
    None None.

(** [RSA_padding_check_PKCS1_OAEP]: both digests are [NULL]. *)
Definition RSA_padding_check_PKCS1_OAEP (fuel : nat) (to from : list Z)
    (num : Z) (param : list Z) : option padding_result :=
  RSA_padding_check_PKCS1_OAEP_mgf1 EVP_sha1 malloc fuel to from num param
    None None.

End OAEP_plain.

(** A digest of size zero that never fails. *)
Definition empty_md : EVP_MD :=
  {| EVP_MD_size := 0; EVP_Digest := fun _ => Some [] |}.

(** *** Signing and verifying a digest (sm2_sign.c, SM2_sign, SM2_verify) *)

(** The two further reason codes of [SM2_sign] and [SM2_verify]. *)
Inductive SM2_asn1_reason : Type :=
  | SM2_R_ASN1_ERROR
  | SM2_R_INVALID_ENCODING.

(** Modelled from the spec: libc's [memcmp] is missing from src/; as for
    [ct_equal], its value is zero exactly when the first [n] bytes
    agree. *)
Definition memcmp (a b : list Z) (n : nat) : Z := timingsafe_memcmp a b n.

(** What [SM2_sign] leaves behind: its return value, the bytes written to
    [sig] (their number goes to [*siglen]) and the last reason reported. *)
Record SM2_sign_result : Type := {
  sign_ret : Z;
  sign_sig : option (list Z);
  sign_reason : option (SM2_reason + SM2_asn1_reason)
}.

Section SM2_der.

(** The DER collaborator: [d2i_ECDSA_SIG] parses a signature from the
    front of the bytes ([None] when it returns [NULL]) and [i2d_ECDSA_SIG]
    encodes one ([None] when it returns a negative length). *)
Variable d2i_ECDSA_SIG : list Z -> option ECDSA_SIG.
Variable i2d_ECDSA_SIG : ECDSA_SIG -> option (list Z).

(** [SM2_sign(dgst, dgstlen, sig, siglen, eckey)]; [None] while the
    generator is still in its loop. *)
Definition SM2_sign (dgst : list Z) (eckey : EC_KEY) (rng : RNG)
    : option SM2_sign_result * RNG :=
  let e := OS2IP dgst in
  match SM2_sig_gen eckey e rng with
  | (Looping, rng') => (None, rng')
  | (Null reason, rng') =>
      (Some {| sign_ret := -1; sign_sig := None;
               sign_reason := Some (inl reason) |}, rng')
  | (Sig s, rng') =>
      match i2d_ECDSA_SIG s with
      | None =>
          (Some {| sign_ret := -1; sign_sig := None;
                   sign_reason := Some (inr SM2_R_ASN1_ERROR) |}, rng')
      | Some der =>
          (Some {| sign_ret := 1; sign_sig := Some der;
                   sign_reason := None |}, rng')
      end
  end.

(** [SM2_verify(dgst, dgstlen, sig, sig_len, eckey)]: the return value and
    the reason reported, if any. *)
Definition SM2_verify (dgst sig : list Z) (eckey : EC_KEY)
    : Z * option (SM2_reason + SM2_asn1_reason) :=
  let sig_len := Z.of_nat (length sig) in
  match d2i_ECDSA_SIG sig with
  | None => (-1, Some (inr SM2_R_INVALID_ENCODING))
  | Some s =>
      (* Ensure signature uses DER and doesn't have trailing garbage *)
      let '(derlen, der) :=
        match i2d_ECDSA_SIG s with
        | Some der => (Z.of_nat (length der), der)
        | None => (-1, [])
        end in
      if negb (derlen =? sig_len)
         || negb (memcmp sig der (Z.to_nat derlen) =? 0)
      then (-1, Some (inr SM2_R_INVALID_ENCODING))
      else
        let e := OS2IP dgst in
        let '(ret, reason) := SM2_sig_verify eckey s e in
        (ret, option_map inl reason)
  end.

End SM2_der.

(** A stand-in for the DER collaborator on small numbers: two bytes, [r]
    then [s]; the parser does not look at what follows them. *)
Definition toy_i2d (s : ECDSA_SIG) : option (list Z) :=
  if (0 <=? sig_r s) && (sig_r s <? 256)
     && (0 <=? sig_s s) && (sig_s s <? 256)
  then Some [sig_r s; sig_s s] else None.

Definition toy_d2i (sig : list Z) : option ECDSA_SIG :=
  match sig with
  | r :: s :: _ => Some {| sig_r := r; sig_s := s |}
  | _ => None
  end.

(* ================================================================== *)
(** ** Part II.  Properties                                            *)
(* ================================================================== *)

(** *** Counter bytes *)

Lemma land_255 (x : Z) : Z.land x 255 = x mod 256.
Proof. change 255 with (Z.ones 8). now rewrite Z.land_ones by lia. Qed.

(** The counter bytes written by the loop are the big-endian base-256
    digits of the counter. *)
Lemma mgf1_cnt_I2OSP (i : Z) : mgf1_cnt i = I2OSP i 4.
Proof.
  unfold mgf1_cnt; cbn [I2OSP app].
  rewrite !land_255, !Z.shiftr_div_pow2 by lia.
  rewrite Z.mod_mod by lia.
  rewrite !Z.div_div by lia.
  reflexivity.
Qed.

Lemma OS2IP_I2OSP_4 (i : Z) : 0 <= i < 2 ^ 32 -> OS2IP (I2OSP i 4) = i.
Proof.
  intros Hi. unfold OS2IP; cbn [I2OSP app OS2IP_acc].
  change (2 ^ 32) with 4294967296 in Hi.
  set (a := i / 256). set (b := a / 256). set (c := b / 256).
  pose proof (Z.div_mod i 256 ltac:(lia)) as H0. fold a in H0.
  pose proof (Z.div_mod a 256 ltac:(lia)) as H1. fold b in H1.
  pose proof (Z.div_mod b 256 ltac:(lia)) as H2. fold c in H2.
  pose proof (Z.mod_pos_bound i 256 ltac:(lia)).
  pose proof (Z.mod_pos_bound a 256 ltac:(lia)).
  pose proof (Z.mod_pos_bound b 256 ltac:(lia)).
  rewrite (Z.mod_small c) by lia.
  lia.
Qed.

(** *** MGF1 *)

Lemma mgf1_blocks_S H seed n :
  mgf1_blocks H seed (S n)
  = mgf1_blocks H seed n ++ H (seed ++ I2OSP (Z.of_nat n) 4).
Proof.
  unfold mgf1_blocks.
  rewrite seq_S, map_app, concat_app. cbn [map concat Nat.add].
  now rewrite app_nil_r.
Qed.

Lemma mgf1_blocks_length H hLen seed n :
  (forall x, Z.of_nat (length (H x)) = hLen) ->
  Z.of_nat (length (mgf1_blocks H seed n)) = Z.of_nat n * hLen.
Proof.
  intros HH. induction n as [|n IH].
  - reflexivity.
  - rewrite mgf1_blocks_S, length_app, Nat2Z.inj_add, IH, HH. lia.
Qed.

Lemma md_ok_digest dgst x :
  md_ok dgst -> EVP_Digest dgst x = Some (digest_of dgst x).
Proof.
  intros [_ Hd]. destruct (Hd x) as (d & E & _).
  unfold digest_of. now rewrite E.
Qed.

Lemma md_ok_length dgst x :
  md_ok dgst -> Z.of_nat (length (digest_of dgst x)) = EVP_MD_size dgst.
Proof.
  intros [_ Hd]. destruct (Hd x) as (d & E & L).
  unfold digest_of. now rewrite E.
Qed.

Lemma mgf1_spec_length H hLen seed len :
  0 < hLen -> 0 <= len ->
  (forall x, Z.of_nat (length (H x)) = hLen) ->
  Z.of_nat (length (mgf1_spec H hLen seed len)) = len.
Proof.
  intros Hh Hl HH. unfold mgf1_spec.
  assert (Hq : 0 <= (len + hLen - 1) / hLen) by (apply Z.div_pos; lia).
  assert (len <= (len + hLen - 1) / hLen * hLen).
  { pose proof (Z.div_mod (len + hLen - 1) hLen ltac:(lia)).
    pose proof (Z.mod_pos_bound (len + hLen - 1) hLen ltac:(lia)). nia. }
  pose proof (mgf1_blocks_length H hLen seed
                (Z.to_nat ((len + hLen - 1) / hLen)) HH) as HL.
  rewrite Z2Nat.id in HL by assumption.
  rewrite length_firstn. lia.
Qed.

Section MGF1_loop.

Variable dgst : EVP_MD.
Variable seed : list Z.
Variable len : Z.
Hypothesis dgst_ok : md_ok dgst.

Let hLen := EVP_MD_size dgst.
Let H := digest_of dgst.

(** Invariant of the loop: after [n] full blocks, [outlen = n * hLen] and
    the mask holds the first [n] blocks. *)
Lemma PKCS1_MGF1_loop_spec (fuel n : nat) :
  Z.of_nat n * hLen <= len ->
  len - Z.of_nat n * hLen <= Z.of_nat fuel ->
  PKCS1_MGF1_loop fuel dgst seed len (Z.of_nat n) (Z.of_nat n * hLen)
    (mgf1_blocks H seed n)
  = Some (0, mgf1_spec H hLen seed len).
Proof.
  assert (Hpos : 0 < hLen) by apply dgst_ok.
  assert (HH : forall x, Z.of_nat (length (H x)) = hLen)
    by (intros x; now apply md_ok_length).
  revert n. induction fuel as [|fuel IH]; intros n Hle Hfuel.
  - assert (E : Z.of_nat n * hLen = len) by lia.
    cbn [PKCS1_MGF1_loop]. rewrite (proj2 (Z.ltb_ge _ _)) by lia.
    unfold mgf1_spec. rewrite <- E.
    replace ((Z.of_nat n * hLen + hLen - 1) / hLen) with (Z.of_nat n)
      by (apply Z.div_unique with (hLen - 1); lia).
    rewrite Nat2Z.id, firstn_all2; [reflexivity|].
    pose proof (mgf1_blocks_length H hLen seed n HH). lia.
  - cbn [PKCS1_MGF1_loop].
    destruct (Z.ltb_spec (Z.of_nat n * hLen) len) as [Hlt|Hge].
    + unfold EVP_DigestFinal_ex, EVP_DigestUpdate, EVP_DigestInit_ex.
      cbn [app]. rewrite (md_ok_digest dgst _ dgst_ok).
      fold hLen. rewrite mgf1_cnt_I2OSP. fold (H (seed ++ I2OSP (Z.of_nat n) 4)).
      destruct (Z.leb_spec (Z.of_nat n * hLen + hLen) len) as [Hfull|Hpart].
      * rewrite <- mgf1_blocks_S.
        replace (Z.of_nat n + 1) with (Z.of_nat (S n)) by lia.
        replace (Z.of_nat n * hLen + hLen) with (Z.of_nat (S n) * hLen) by lia.
        apply IH; lia.
      * assert (Hq : (len + hLen - 1) / hLen = Z.of_nat (S n)).
        { symmetry. rewrite Nat2Z.inj_succ.
          apply Z.div_unique with (len - Z.of_nat n * hLen - 1); lia. }
        pose proof (mgf1_blocks_length H hLen seed n HH) as HL.
        assert (Hmask : mgf1_blocks H seed n
                          ++ firstn (Z.to_nat (len - Z.of_nat n * hLen))
                               (H (seed ++ I2OSP (Z.of_nat n) 4))
                        = mgf1_spec H hLen seed len).
        { unfold mgf1_spec. rewrite Hq, Nat2Z.id, mgf1_blocks_S, firstn_app.
          rewrite (firstn_all2 (n := Z.to_nat len) (mgf1_blocks H seed n)) by lia.
          do 2 f_equal. lia. }
        rewrite Hmask.
        destruct fuel; cbn [PKCS1_MGF1_loop]; now rewrite Z.ltb_irrefl.
    + assert (E : Z.of_nat n * hLen = len) by lia.
      unfold mgf1_spec. rewrite <- E.
      replace ((Z.of_nat n * hLen + hLen - 1) / hLen) with (Z.of_nat n)
        by (apply Z.div_unique with (hLen - 1); lia).
      rewrite Nat2Z.id, firstn_all2; [reflexivity|].
      pose proof (mgf1_blocks_length H hLen seed n HH). lia.
Qed.

End MGF1_loop.

Lemma toy_md_ok : md_ok toy_md.
Proof.
  split; [reflexivity|]. intros x. now exists (toy_digest x).
Qed.

(** A run of [PKCS1_MGF1] with enough fuel, for a digest that behaves. *)
Lemma PKCS1_MGF1_run (dgst : EVP_MD) (seed : list Z) (len : Z)
    (fuel : nat) :
  md_ok dgst -> 0 <= len -> (Z.to_nat len <= fuel)%nat ->
  let mask := mgf1_spec (digest_of dgst) (EVP_MD_size dgst) seed len in
  PKCS1_MGF1 fuel len seed dgst = Some (0, mask)
  /\ Z.of_nat (length mask) = len.
Proof.
  intros Hok Hlen Hfuel mask. split.
  - unfold PKCS1_MGF1. destruct Hok as [Hpos Hd].
    rewrite (proj2 (Z.ltb_ge _ _)) by lia.
    apply (PKCS1_MGF1_loop_spec dgst seed len (conj Hpos Hd) fuel 0);
      cbn; lia.
  - apply mgf1_spec_length; try assumption; [apply Hok|].
    intros x; now apply md_ok_length.
Qed.

(** C9.  For a digest of positive size that does not fail and a requested
    length [len >= 0], [PKCS1_MGF1] returns 0 and writes exactly [len]
    bytes: the blocks [hash (seed || I2OSP (i, 4))] for [i = 0, 1, ...],
    concatenated and cut to [len] bytes, where [I2OSP (i, 4)] are the four
    big-endian base-256 digits of the counter.  The output depends on the
    arguments only: any two runs on the same arguments give the same
    mask. *)
Theorem PKCS1_MGF1_correct (dgst : EVP_MD) (seed : list Z) (len : Z)
    (fuel : nat) :
  md_ok dgst -> 0 <= len -> (Z.to_nat len <= fuel)%nat ->
  let mask := mgf1_spec (digest_of dgst) (EVP_MD_size dgst) seed len in
  PKCS1_MGF1 fuel len seed dgst = Some (0, mask)
  /\ Z.of_nat (length mask) = len
  /\ (forall i, 0 <= i < 2 ^ 32 -> OS2IP (I2OSP i 4) = i)
  /\ forall fuel', (Z.to_nat len <= fuel')%nat ->
       PKCS1_MGF1 fuel' len seed dgst = PKCS1_MGF1 fuel len seed dgst.
Proof.
  intros Hok Hlen Hfuel mask.
  destruct (PKCS1_MGF1_run dgst seed len fuel Hok Hlen Hfuel) as [Hrun Hl].
  repeat split; try assumption.
  - apply OS2IP_I2OSP_4.
  - intros fuel' Hfuel'. rewrite Hrun.
    now destruct (PKCS1_MGF1_run dgst seed len fuel' Hok Hlen Hfuel').
Qed.

Lemma PKCS1_MGF1_correct_witness :
  PKCS1_MGF1 5 5 [1; 2; 3] toy_md = Some (0, [90; 6; 91; 7; 88]).
Proof.
  exact (proj1 (PKCS1_MGF1_correct toy_md [1; 2; 3] 5 5 toy_md_ok
                  ltac:(lia) ltac:(cbn; lia))).
Defined.

(** *** Buffers *)

Lemma store_skip (a buf : list Z) (off : Z) (d : list Z) :
  Z.of_nat (length a) <= off ->
  store (a ++ buf) off d = a ++ store buf (off - Z.of_nat (length a)) d.
Proof.
  intros Hoff. unfold store.
  rewrite firstn_app, skipn_app.
  rewrite (firstn_all2 (n := Z.to_nat off) a) by lia.
  rewrite (skipn_all2 (n := (Z.to_nat off + length d)%nat) a) by lia.
  cbn [app]. rewrite <- app_assoc.
  replace (Z.to_nat (off - Z.of_nat (length a)))
    with (Z.to_nat off - length a)%nat by lia.
  replace (Z.to_nat off + length d - length a)%nat
    with (Z.to_nat off - length a + length d)%nat by lia.
  reflexivity.
Qed.

Lemma store_here (b c : list Z) (off : Z) (d : list Z) :
  off = 0 -> length d = length b -> store (b ++ c) off d = d ++ c.
Proof.
  intros -> Hlen. unfold store. cbn [Z.to_nat firstn app Nat.add].
  rewrite Hlen, skipn_app, Nat.sub_diag, skipn_all. reflexivity.
Qed.

Lemma store_all (b : list Z) (off : Z) (d : list Z) :
  off = 0 -> length d = length b -> store b off d = d.
Proof.
  intros Hoff Hlen. rewrite <- (app_nil_r b), store_here by assumption.
  apply app_nil_r.
Qed.

Lemma store_length (buf : list Z) (off : Z) (d : list Z) :
  0 <= off -> off + Z.of_nat (length d) <= Z.of_nat (length buf) ->
  length (store buf off d) = length buf.
Proof.
  intros H0 H1. unfold store.
  rewrite !length_app, length_firstn, length_skipn. lia.
Qed.

Lemma load_skip (a buf : list Z) (off len : Z) :
  Z.of_nat (length a) <= off ->
  load (a ++ buf) off len = load buf (off - Z.of_nat (length a)) len.
Proof.
  intros Hoff. unfold load. rewrite skipn_app.
  rewrite (skipn_all2 (n := Z.to_nat off) a) by lia.
  cbn [app]. do 2 f_equal. lia.
Qed.

Lemma load_here (b c : list Z) (off len : Z) :
  off = 0 -> len = Z.of_nat (length b) -> load (b ++ c) off len = b.
Proof.
  intros -> ->. unfold load. cbn [Z.to_nat skipn].
  rewrite Nat2Z.id, firstn_app, Nat.sub_diag, firstn_all. cbn [firstn].
  apply app_nil_r.
Qed.

Lemma load_all (b : list Z) (off len : Z) :
  off = 0 -> len = Z.of_nat (length b) -> load b off len = b.
Proof.
  intros Hoff Hlen. rewrite <- (app_nil_r b) at 1.
  now apply load_here.
Qed.

Lemma load_length (buf : list Z) (off len : Z) :
  0 <= off -> 0 <= len -> off + len <= Z.of_nat (length buf) ->
  Z.of_nat (length (load buf off len)) = len.
Proof.
  intros. unfold load. rewrite length_firstn, length_skipn. lia.
Qed.

(** *** Exclusive or *)

Lemma xor_loop_length (n : nat) (a b : list Z) :
  length (xor_loop n a b) = length a.
Proof.
  revert a b. induction n as [|n IH]; intros [|x a] [|y b];
    cbn [xor_loop length]; auto.
Qed.

Lemma xor_loop_xor_bytes (n : nat) (a b : list Z) :
  length a = n -> length b = n -> xor_loop n a b = xor_bytes a b.
Proof.
  revert a b. induction n as [|n IH]; intros [|x a] [|y b] Ha Hb;
    try discriminate; [reflexivity|].
  cbn [xor_loop]. unfold xor_bytes. cbn [combine map fst snd].
  f_equal. apply IH; now injection Ha + injection Hb.
Qed.

Lemma xor_loop_app_r (n : nat) (a b c : list Z) :
  (n <= length b)%nat -> xor_loop n a (b ++ c) = xor_loop n a b.
Proof.
  revert a b. induction n as [|n IH]; intros [|x a] [|y b] Hb;
    cbn [xor_loop app length] in *; try reflexivity; try lia.
  f_equal. apply IH. lia.
Qed.

Lemma xor_loop_cancel (n : nat) (a m : list Z) :
  length a = n -> length m = n -> xor_loop n m (xor_loop n a m) = a.
Proof.
  revert a m. induction n as [|n IH]; intros [|x a] [|y m] Ha Hm;
    try discriminate; [reflexivity|].
  cbn [xor_loop]. f_equal.
  - rewrite Z.lxor_comm, Z.lxor_assoc, Z.lxor_nilpotent. apply Z.lxor_0_r.
  - apply IH; now injection Ha + injection Hm.
Qed.

(** *** OAEP encoding *)

Lemma split_at (n : nat) (l : list Z) :
  (n <= length l)%nat ->
  exists a b, l = a ++ b /\ length a = n.
Proof.
  intros Hn. exists (firstn n l), (skipn n l). split.
  - symmetry. apply firstn_skipn.
  - rewrite length_firstn. lia.
Qed.

(** Move a [store] past the first piece of the buffer. *)
Ltac store_next :=
  rewrite store_skip by (cbn [length]; lia); cbn [length].

(** Resolve the innermost [store] of [d], which lands on the piece after
    the first [n] pieces of the buffer. *)
Tactic Notation "store_at" integer(n) constr(d) :=
  match goal with
  | |- context [store (?a ++ ?b) ?off d] =>
      let E := fresh "E" in
      eassert (E : store (a ++ b) off d = _)
        by (do n store_next;
            first [ rewrite store_here by (cbn [length]; lia)
                  | rewrite store_all by (cbn [length]; lia) ];
            reflexivity);
      rewrite E; clear E
  end.

(** The six writes that lay out [to] before masking. *)
Lemma encode_layout (to lhash from seed0 : list Z) (h emlen flen : Z) :
  Z.of_nat (length to) = emlen + 1 ->
  Z.of_nat (length from) = flen ->
  Z.of_nat (length lhash) = h ->
  Z.of_nat (length seed0) = h ->
  flen <= emlen - 2 * h - 1 ->
  store
    (store
       (store
          (memset (store (store to 0 [0]) (h + 1) lhash) (h + 1 + h) 0
             (emlen - flen - 2 * h - 1))
          (h + 1 + (emlen - flen - h - 1)) [1])
       (h + 1 + (emlen - flen - h)) from)
    1 seed0
  = [0] ++ seed0
      ++ (lhash ++ repeat 0 (Z.to_nat (emlen - flen - 2 * h - 1))
            ++ [1] ++ from).
Proof.
  intros Hto Hfrom Hh Hs Hf.
  assert (Hh0 : 0 <= h) by lia.
  destruct (split_at 1 to) as (t0 & r1 & -> & L0); [lia|].
  rewrite length_app in Hto.
  destruct (split_at (Z.to_nat h) r1) as (ts & r2 & -> & L1); [lia|].
  rewrite length_app in Hto.
  destruct (split_at (Z.to_nat h) r2) as (th & r3 & -> & L2); [lia|].
  rewrite length_app in Hto.
  destruct (split_at (Z.to_nat (emlen - flen - 2 * h - 1)) r3)
    as (tp & r4 & -> & L3); [lia|].
  rewrite length_app in Hto.
  destruct (split_at 1 r4) as (t1 & tm & -> & L4); [lia|].
  rewrite length_app in Hto.
  assert (L5 : length tm = length from) by lia.
  assert (Lp : length (repeat 0 (Z.to_nat (emlen - flen - 2 * h - 1)))
               = length tp) by (rewrite repeat_length; lia).
  unfold memset.
  store_at 0 [0]. store_at 2 lhash.
  store_at 3 (repeat 0 (Z.to_nat (emlen - flen - 2 * h - 1))).
  store_at 4 [1]. store_at 5 from. store_at 1 seed0.
  reflexivity.
Qed.

Lemma xor_bytes_length (a b : list Z) :
  length a = length b -> length (xor_bytes a b) = length a.
Proof.
  intros E. unfold xor_bytes. rewrite length_map, length_combine. lia.
Qed.

Section Encode.

Variable sha1 : EVP_MD.
Variable malloc : Z -> bool.
Variables md mgf1md : option EVP_MD.

Let md' := match md with Some m => m | None => sha1 end.
Let mgf' := match mgf1md with Some m => m | None => md' end.

Lemma encode_success (fuel : nat) (entropy to from param : list Z) :
  let h := EVP_MD_size md' in
  let tlen := Z.of_nat (length to) in
  md_ok md' -> md_ok mgf' ->
  malloc (tlen - 1 - h) = true ->
  h <= Z.of_nat (length entropy) ->
  (Z.to_nat tlen <= fuel)%nat ->
  Z.of_nat (length from) <= tlen - 2 * h - 2 ->
  RSA_padding_add_PKCS1_OAEP_mgf1 sha1 malloc fuel entropy to from param
    md mgf1md
  = Some {| ret := 1; reason := None;
            to_after := oaep_encode_spec md' mgf' from param
                          (firstn (Z.to_nat h) entropy) tlen |}.
Proof.
  intros h tlen Hmd Hmgf Hmalloc Hent Hfuel Hfit.
  assert (Hh : 0 < h) by apply Hmd.
  unfold RSA_padding_add_PKCS1_OAEP_mgf1.
  fold md'. fold mgf'. fold h. fold tlen.
  set (flen := Z.of_nat (length from)) in *.
  rewrite Z.gtb_ltb, (proj2 (Z.ltb_ge _ _)) by lia.
  rewrite (proj2 (Z.ltb_ge _ _)) by lia.
  rewrite (md_ok_digest md' param Hmd).
  set (lhash := digest_of md' param).
  set (seed0 := firstn (Z.to_nat h) entropy).
  assert (Llh : Z.of_nat (length lhash) = h) by now apply md_ok_length.
  assert (Ls0 : Z.of_nat (length seed0) = h)
    by (unfold seed0; rewrite length_firstn; lia).
  rewrite (encode_layout to lhash from seed0 h (tlen - 1) flen)
    by (try reflexivity; try assumption; subst tlen; lia).
  set (DB := lhash ++ repeat 0 (Z.to_nat (tlen - 1 - flen - 2 * h - 1))
               ++ [1] ++ from).
  assert (LDB : Z.of_nat (length DB) = tlen - 1 - h).
  { unfold DB. rewrite !length_app, repeat_length. cbn [length].
    subst flen. lia. }
  rewrite Hmalloc. cbn [negb].
  rewrite load_skip by (cbn [length]; lia). cbn [length].
  rewrite (load_here seed0) by lia.
  destruct (PKCS1_MGF1_run mgf' seed0 (tlen - 1 - h) fuel Hmgf)
    as (-> & Lm1); [lia | lia |].
  set (dbmask := mgf1_spec (digest_of mgf') (EVP_MD_size mgf') seed0
                   (tlen - 1 - h)) in *.
  cbn [Z.ltb Z.compare].
  rewrite !load_skip by (cbn [length]; lia). cbn [length].
  rewrite (load_all DB) by lia.
  rewrite xor_loop_xor_bytes by lia.
  set (mdb := xor_bytes DB dbmask).
  assert (Lmdb : length mdb = length DB)
    by (unfold mdb; rewrite xor_bytes_length; lia).
  store_at 2 mdb.
  rewrite !load_skip by (cbn [length]; lia). cbn [length].
  rewrite (load_all mdb) by lia.
  rewrite (load_here seed0) by lia.
  destruct (PKCS1_MGF1_run mgf' mdb h fuel Hmgf)
    as (-> & Lm2); [lia | lia |].
  set (seedmask := mgf1_spec (digest_of mgf') (EVP_MD_size mgf') mdb h) in *.
  cbn [Z.ltb Z.compare].
  rewrite xor_loop_xor_bytes by lia.
  assert (Lms : length (xor_bytes seed0 seedmask) = length seed0)
    by (rewrite xor_bytes_length; lia).
  store_at 1 (xor_bytes seed0 seedmask).
  unfold oaep_encode_spec. fold h lhash.
  replace (tlen - Z.of_nat (length from) - 2 * h - 2)
    with (tlen - 1 - flen - 2 * h - 1) by (subst flen; lia).
  fold DB.
  replace (tlen - h - 1) with (tlen - 1 - h) by lia.
  reflexivity.
Qed.

End Encode.

Lemma oaep_encode_spec_length (hash mgf_hash : EVP_MD)
    (msg label seed : list Z) (emLen : Z) :
  md_ok hash -> md_ok mgf_hash ->
  Z.of_nat (length seed) = EVP_MD_size hash ->
  Z.of_nat (length msg) <= emLen - 2 * EVP_MD_size hash - 2 ->
  Z.of_nat (length (oaep_encode_spec hash mgf_hash msg label seed emLen))
  = emLen.
Proof.
  intros Hh Hm Ls Hfit. unfold oaep_encode_spec.
  assert (0 < EVP_MD_size hash) by apply Hh.
  assert (Hlen : forall x,
            Z.of_nat (length (digest_of mgf_hash x)) = EVP_MD_size mgf_hash)
    by (intros; now apply md_ok_length).
  assert (0 < EVP_MD_size mgf_hash) by apply Hm.
  set (DB := digest_of hash label ++ _).
  assert (LDB : Z.of_nat (length DB) = emLen - EVP_MD_size hash - 1).
  { unfold DB. rewrite !length_app, repeat_length. cbn [length].
    pose proof (md_ok_length hash label Hh). lia. }
  rewrite !length_app, !xor_bytes_length; cbn [length].
  - lia.
  - apply Nat2Z.inj. rewrite mgf1_spec_length; lia || assumption.
  - apply Nat2Z.inj. rewrite mgf1_spec_length; lia || assumption.
Qed.

(** What the encoder answers, with digests that behave, memory for the
    mask and [hLen] random bytes: it reports
    [RSA_R_DATA_TOO_LARGE_FOR_KEY_SIZE] exactly when
    [mLen > emLen - 2 * hLen - 2], returning 0 with the buffer as it was,
    and otherwise returns 1 and fills the buffer with the [emLen] bytes
    [0x00 || maskedSeed || maskedDB] of the construction. *)
Lemma encode_outcomes (sha1 : EVP_MD) (malloc : Z -> bool)
    (fuel : nat) (entropy to from param : list Z)
    (md mgf1md : option EVP_MD) :
  let hash := match md with Some m => m | None => sha1 end in
  let mgf_hash := match mgf1md with Some m => m | None => hash end in
  let hLen := EVP_MD_size hash in
  let emLen := Z.of_nat (length to) in
  let mLen := Z.of_nat (length from) in
  md_ok hash -> md_ok mgf_hash ->
  malloc (emLen - 1 - hLen) = true ->
  hLen <= Z.of_nat (length entropy) ->
  (Z.to_nat emLen <= fuel)%nat ->
  exists r,
    RSA_padding_add_PKCS1_OAEP_mgf1 sha1 malloc fuel entropy to from param
      md mgf1md = Some r
    /\ (reason r = Some RSA_R_DATA_TOO_LARGE_FOR_KEY_SIZE
        <-> mLen > emLen - 2 * hLen - 2)
    /\ (emLen < 2 * hLen + 2 ->
        reason r = Some RSA_R_DATA_TOO_LARGE_FOR_KEY_SIZE)
    /\ reason r <> Some RSA_R_KEY_SIZE_TOO_SMALL
    /\ (mLen > emLen - 2 * hLen - 2 -> ret r = 0 /\ to_after r = to)
    /\ (mLen <= emLen - 2 * hLen - 2 ->
        ret r = 1 /\ reason r = None
        /\ to_after r = oaep_encode_spec hash mgf_hash from param
                          (firstn (Z.to_nat hLen) entropy) emLen
        /\ Z.of_nat (length (to_after r)) = emLen).
Proof.
  intros hash mgf_hash hLen emLen mLen Hh Hm Hmalloc Hent Hfuel.
  destruct (Z.le_gt_cases mLen (emLen - 2 * hLen - 2)) as [Hfit|Hbig].
  - eexists. split.
    { apply encode_success; assumption. }
    cbn [ret reason to_after]. repeat split; try discriminate; try lia.
    apply (oaep_encode_spec_length hash mgf_hash); try assumption.
    rewrite length_firstn. unfold hLen in *. fold hash.
    pose proof (proj1 Hh). lia.
  - unfold RSA_padding_add_PKCS1_OAEP_mgf1.
    fold hash. fold mgf_hash. fold hLen. fold emLen. fold mLen.
    rewrite (proj2 (Z.gtb_gt _ _)) by lia.
    eexists. split; [reflexivity|]. cbn [ret reason to_after].
    repeat split; try discriminate; try lia.
Qed.

(** The test of [flen] comes first: for a block too small for the digest
    the encoder has returned before it reaches the test of [emlen]. *)
Lemma encode_small_key (sha1 : EVP_MD) (malloc : Z -> bool)
    (fuel : nat) (entropy to from param : list Z)
    (md mgf1md : option EVP_MD) :
  let hash := match md with Some m => m | None => sha1 end in
  Z.of_nat (length to) < 2 * EVP_MD_size hash + 2 ->
  RSA_padding_add_PKCS1_OAEP_mgf1 sha1 malloc fuel entropy to from param
    md mgf1md
  = Some {| ret := 0; reason := Some RSA_R_DATA_TOO_LARGE_FOR_KEY_SIZE;
            to_after := to |}.
Proof.
  intros hash Hsmall. unfold RSA_padding_add_PKCS1_OAEP_mgf1. fold hash.
  now rewrite (proj2 (Z.gtb_gt _ _)) by lia.
Qed.

(** The branch that reports [RSA_R_KEY_SIZE_TOO_SMALL] is never taken,
    whatever the digests, the allocator and the buffers: a length [flen]
    is not negative, and then [emlen < 2 * mdlen + 1] implies
    [flen > emlen - 2 * mdlen - 1]. *)
Lemma encode_key_size_branch_dead (sha1 : EVP_MD) (malloc : Z -> bool)
    (fuel : nat) (entropy to from param : list Z)
    (md mgf1md : option EVP_MD) (r : padding_result) :
  RSA_padding_add_PKCS1_OAEP_mgf1 sha1 malloc fuel entropy to from param
    md mgf1md = Some r ->
  reason r <> Some RSA_R_KEY_SIZE_TOO_SMALL.
Proof.
  unfold RSA_padding_add_PKCS1_OAEP_mgf1.
  destruct (Z.gtb_spec (Z.of_nat (length from))
              (Z.of_nat (length to) - 1
               - 2 * EVP_MD_size match md with Some m => m | None => sha1 end
               - 1)) as [?|Hfit];
    [intros [= <-]; discriminate|].
  rewrite (proj2 (Z.ltb_ge _ _)) by lia.
  destruct (EVP_Digest _ param); [|intros [= <-]; discriminate].
  destruct (negb (malloc _)); [intros [= <-]; discriminate|].
  destruct (PKCS1_MGF1 _ _ _ _) as [[rv1 dbmask]|]; [|discriminate].
  destruct (rv1 <? 0); [intros [= <-]; discriminate|].
  destruct (PKCS1_MGF1 _ _ _ _) as [[rv2 seedmask]|]; [|discriminate].
  destruct (rv2 <? 0); intros [= <-]; discriminate.
Qed.

(** C8, failing input.  A block of 41 bytes is too small for a digest of
    20 bytes such as SHA-1 ([41 < 2 * 20 + 2]).  Encoding the empty
    message into it returns 0 with [RSA_R_DATA_TOO_LARGE_FOR_KEY_SIZE]:
    the branch written for this case, which reports
    [RSA_R_KEY_SIZE_TOO_SMALL], comes second and is not reached. *)
Theorem OAEP_encode_key_size_too_small :
  41 < 2 * 20 + 2
  /\ forall (digest : list Z -> option (list Z)) (malloc : Z -> bool)
       (fuel : nat) (entropy param : list Z),
       RSA_padding_add_PKCS1_OAEP_mgf1
         {| EVP_MD_size := 20; EVP_Digest := digest |} malloc fuel entropy
         (repeat 0 41) [] param None None
       = Some {| ret := 0;
                 reason := Some RSA_R_DATA_TOO_LARGE_FOR_KEY_SIZE;
                 to_after := repeat 0 41 |}.
Proof.
  split; [lia|]. intros digest malloc fuel entropy param.
  apply encode_small_key. cbn. lia.
Qed.

(** *** OAEP decoding *)

Lemma xor_loop_firstn (n : nat) (a b : list Z) :
  length a = n -> (n <= length b)%nat ->
  xor_loop n a b = xor_bytes (firstn n b) a.
Proof.
  revert a b. induction n as [|n IH]; intros [|x a] [|y b] Ha Hb;
    cbn [length] in *; try discriminate; try lia; try reflexivity.
  cbn [xor_loop firstn]. unfold xor_bytes. cbn [combine map fst snd].
  rewrite Z.lxor_comm. f_equal. apply IH; lia.
Qed.

Lemma oaep_pad_length (from : list Z) (num : Z) :
  1 <= num -> Z.of_nat (length (oaep_pad from num)) = num - 1.
Proof.
  intros Hn. unfold oaep_pad.
  destruct (Z.ltb_spec (num - 1 - Z.of_nat (length from)) 0).
  - rewrite length_firstn. lia.
  - rewrite length_app, repeat_length. lia.
Qed.

Section Decode.

Variable sha1 : EVP_MD.
Variable malloc : Z -> bool.
Variables md mgf1md : option EVP_MD.

Let md' := match md with Some m => m | None => sha1 end.
Let mgf' := match mgf1md with Some m => m | None => md' end.

(** The decoder up to the checks: with digests that behave, the buffer
    [db] holds the data block of section 4.3 when the checks begin. *)
Lemma decode_unmask (fuel : nat) (to from : list Z) (num : Z)
    (param : list Z) :
  let h := EVP_MD_size md' in
  let tlen := Z.of_nat (length to) in
  let flen := Z.of_nat (length from) in
  let dblen := num - 1 - h in
  let DB := oaep_DB md' mgf' (oaep_pad from num) num in
  md_ok md' -> md_ok mgf' ->
  malloc (dblen + (num - 1)) = true ->
  (Z.to_nat num <= fuel)%nat ->
  2 * h + 2 <= num ->
  RSA_padding_check_PKCS1_OAEP_mgf1 sha1 malloc fuel to from num param
    md mgf1md
  = Some
      (if negb (timingsafe_memcmp DB (digest_of md' param) (Z.to_nat h) =? 0)
          || (num - 1 - flen <? 0)
       then decoding_err to
       else
         let i := scan_zeros (Z.to_nat (dblen - h)) DB h in
         if (i =? dblen) || negb (nth (Z.to_nat i) DB 0 =? 1)
         then decoding_err to
         else if tlen <? dblen - (i + 1)
         then {| ret := -1; reason := Some RSA_R_DATA_TOO_LARGE;
                 to_after := to |}
         else {| ret := dblen - (i + 1); reason := None;
                 to_after :=
                   store to 0 (load DB (i + 1) (dblen - (i + 1))) |}).
Proof.
  intros h tlen flen dblen DB Hmd Hmgf Hmalloc Hfuel Hnum.
  assert (Hh : 0 < h) by apply Hmd.
  pose proof (oaep_pad_length from num ltac:(lia)) as Lpad.
  unfold RSA_padding_check_PKCS1_OAEP_mgf1.
  fold md'. fold mgf'. fold h. fold tlen. fold flen.
  rewrite (proj2 (Z.ltb_ge _ _)) by lia.
  assert (Epad : forall bad lzero flen',
            (if num - 1 - flen <? 0 then (true, 0, num - 1)
             else (false, num - 1 - flen, flen)) = (bad, lzero, flen') ->
            bad = (num - 1 - flen <? 0)
            /\ repeat 0 (Z.to_nat lzero) ++ load from 0 flen'
               = oaep_pad from num).
  { intros bad lzero flen' E. unfold oaep_pad. fold flen.
    destruct (num - 1 - flen <? 0); injection E as <- <- <-;
      (split; [reflexivity|]).
    - reflexivity.
    - now rewrite load_all. }
  destruct (if num - 1 - flen <? 0 then (true, 0, num - 1)
            else (false, num - 1 - flen, flen))
    as [[bad lzero] flen'] eqn:E.
  destruct (Epad _ _ _ eq_refl) as [-> ->]. clear E Epad.
  fold dblen. change (num - 1 - h) with dblen.
  rewrite Hmalloc. cbn [negb].
  set (pad := oaep_pad from num) in *.
  set (mdb := load pad h dblen).
  assert (Lmdb : Z.of_nat (length mdb) = dblen)
    by (apply load_length; subst dblen; lia).
  destruct (PKCS1_MGF1_run mgf' mdb h fuel Hmgf)
    as (-> & Lm1); [lia | lia |].
  cbn [Z.eqb negb].
  rewrite xor_loop_firstn by lia.
  set (seed := xor_bytes (firstn (Z.to_nat h) pad) _).
  destruct (PKCS1_MGF1_run mgf' seed dblen fuel Hmgf)
    as (-> & Lm2); [subst dblen; lia | subst dblen; lia |].
  cbn [Z.eqb negb].
  rewrite (md_ok_digest md' param Hmd).
  rewrite xor_loop_firstn by lia.
  rewrite (firstn_all2 (n := Z.to_nat dblen) mdb) by lia.
  change (xor_bytes mdb _) with DB.
  destruct (negb (timingsafe_memcmp DB (digest_of md' param) (Z.to_nat h)
                    =? 0) || (num - 1 - flen <? 0)); [reflexivity|].
  cbv zeta.
  destruct ((scan_zeros (Z.to_nat (dblen - h)) DB h =? dblen) || _);
    [reflexivity|].
  now destruct (tlen <? _).
Qed.

End Decode.

(** *** The padding checks *)

Lemma timingsafe_memcmp_eq (n : nat) (a b : list Z) :
  (n <= length a)%nat -> (n <= length b)%nat ->
  timingsafe_memcmp a b n = 0 <-> firstn n a = firstn n b.
Proof.
  revert a b. induction n as [|n IH]; intros [|x a] [|y b] Ha Hb;
    cbn [length] in *; try lia; try (now split).
  cbn [timingsafe_memcmp firstn].
  destruct (Z.ltb_spec x y); [split; [discriminate | intros [= ]; lia]|].
  destruct (Z.ltb_spec y x); [split; [discriminate | intros [= ]; lia]|].
  assert (x = y) by lia. subst y.
  rewrite IH by lia. split; [now intros -> | now intros [= ]].
Qed.

Lemma skipn_cons_inv (k : nat) (db : list Z) (x : Z) (l : list Z) :
  skipn k db = x :: l -> nth k db 0 = x /\ skipn (S k) db = l.
Proof.
  revert db. induction k as [|k IH]; intros [|y db] E;
    cbn [skipn] in E; try discriminate.
  - injection E as -> ->. now split.
  - destruct (IH db E) as [E1 E2]. split; [exact E1 | exact E2].
Qed.

(** The scan stops at the first nonzero byte after [i], or at the end. *)
Lemma scan_zeros_first_nonzero (n : nat) (db : list Z) (i : Z) :
  0 <= i -> length (skipn (Z.to_nat i) db) = n ->
  scan_zeros n db i
  = i + Z.of_nat match first_nonzero (skipn (Z.to_nat i) db) with
                 | Some k => k
                 | None => n
                 end.
Proof.
  revert i. induction n as [|n IH]; intros i Hi Hlen.
  - destruct (skipn (Z.to_nat i) db); [|discriminate].
    cbn [scan_zeros first_nonzero]. lia.
  - destruct (skipn (Z.to_nat i) db) as [|x l] eqn:E; [discriminate|].
    destruct (skipn_cons_inv _ _ _ _ E) as [Ex El].
    cbn [scan_zeros first_nonzero]. rewrite Ex.
    destruct (Z.eqb_spec x 0) as [->|Hx]; cbn [negb]; [|lia].
    replace (S (Z.to_nat i)) with (Z.to_nat (i + 1)) in El by lia.
    rewrite IH, El by (try lia; rewrite El; now injection Hlen).
    destruct (first_nonzero l); cbn [option_map]; lia.
Qed.

Lemma first_nonzero_Some (l : list Z) (k : nat) :
  first_nonzero l = Some k ->
  (k < length l)%nat /\ nth k l 0 <> 0 /\ firstn k l = repeat 0 k.
Proof.
  revert k. induction l as [|x l IH]; intros k E; cbn [first_nonzero] in E;
    [discriminate|].
  destruct (Z.eqb_spec x 0) as [->|Hx].
  - destruct (first_nonzero l) as [k'|]; [|discriminate].
    injection E as <-. destruct (IH k' eq_refl) as (H1 & H2 & H3).
    cbn [length nth firstn repeat]. repeat split; [lia | exact H2 |].
    now rewrite H3.
  - injection E as <-. cbn [length nth firstn repeat].
    repeat split; [lia | exact Hx].
Qed.

Lemma first_nonzero_zeros (k : nat) (x : Z) (l : list Z) :
  x <> 0 -> first_nonzero (repeat 0 k ++ x :: l) = Some k.
Proof.
  intros Hx. induction k as [|k IH]; cbn [repeat app first_nonzero].
  - now destruct (Z.eqb_spec x 0).
  - now rewrite IH.
Qed.

Lemma oaep_DB_length (hash mgf_hash : EVP_MD) (buf : list Z) (num : Z) :
  md_ok hash -> md_ok mgf_hash ->
  Z.of_nat (length buf) = num - 1 ->
  2 * EVP_MD_size hash + 2 <= num ->
  Z.of_nat (length (oaep_DB hash mgf_hash buf num))
  = num - 1 - EVP_MD_size hash.
Proof.
  intros Hh Hm Lb Hn. unfold oaep_DB.
  assert (0 < EVP_MD_size hash) by apply Hh.
  assert (0 < EVP_MD_size mgf_hash) by apply Hm.
  assert (Hlen : forall x,
            Z.of_nat (length (digest_of mgf_hash x)) = EVP_MD_size mgf_hash)
    by (intros; now apply md_ok_length).
  set (mdb := firstn _ (skipn _ buf)).
  assert (Z.of_nat (length mdb) = num - 1 - EVP_MD_size hash)
    by (unfold mdb; rewrite length_firstn, length_skipn; lia).
  rewrite xor_bytes_length; [assumption|].
  apply Nat2Z.inj. rewrite mgf1_spec_length; lia || assumption.
Qed.

(** C4.  With digests that behave and memory for the work buffer, every
    padding failure of the decoder (modulus too short for the digest,
    caller length exceeding the block, label hash mismatch, no separator
    after the zeros, or a first nonzero byte other than 0x01) ends in the
    same result: -1 with [RSA_R_OAEP_DECODING_ERROR] and an untouched
    output buffer.  [RSA_R_DATA_TOO_LARGE] is reported exactly when all of
    these checks pass and the plaintext is longer than the output buffer,
    and no other reason is ever reported. *)
Theorem OAEP_decode_error_kinds (sha1 : EVP_MD) (malloc : Z -> bool)
    (fuel : nat) (to from : list Z) (num : Z) (param : list Z)
    (md mgf1md : option EVP_MD) :
  let hash := match md with Some m => m | None => sha1 end in
  let mgf_hash := match mgf1md with Some m => m | None => hash end in
  let hLen := EVP_MD_size hash in
  let tlen := Z.of_nat (length to) in
  let flen := Z.of_nat (length from) in
  let DB := oaep_DB hash mgf_hash (oaep_pad from num) num in
  let lHash := digest_of hash param in
  let sep := first_nonzero (skipn (Z.to_nat hLen) DB) in
  md_ok hash -> md_ok mgf_hash ->
  malloc (num - 1 - hLen + (num - 1)) = true ->
  (Z.to_nat num <= fuel)%nat ->
  exists r,
    RSA_padding_check_PKCS1_OAEP_mgf1 sha1 malloc fuel to from num param
      md mgf1md = Some r
    /\ (num < 2 * hLen + 2
        \/ num - 1 < flen
        \/ firstn (Z.to_nat hLen) DB <> lHash
        \/ sep = None
        \/ (exists k, sep = Some k /\ nth (Z.to_nat hLen + k) DB 0 <> 1) ->
        r = decoding_err to)
    /\ (reason r = Some RSA_R_DATA_TOO_LARGE <->
        2 * hLen + 2 <= num
        /\ flen <= num - 1
        /\ firstn (Z.to_nat hLen) DB = lHash
        /\ exists k,
             sep = Some k /\ nth (Z.to_nat hLen + k) DB 0 = 1
             /\ tlen < Z.of_nat (length (skipn (Z.to_nat hLen + k + 1) DB)))
    /\ (reason r = None
        \/ reason r = Some RSA_R_OAEP_DECODING_ERROR
        \/ reason r = Some RSA_R_DATA_TOO_LARGE)
    /\ (reason r = None <-> 0 <= ret r).
Proof.
  intros hash mgf_hash hLen tlen flen DB lHash sep Hh Hm Hmalloc Hfuel.
  assert (Hpos : 0 < hLen) by apply Hh.
  destruct (Z.lt_ge_cases num (2 * hLen + 2)) as [Hsmall|Hnum].
  { exists (decoding_err to). split.
    - unfold RSA_padding_check_PKCS1_OAEP_mgf1.
      fold hash. fold hLen. now rewrite (proj2 (Z.ltb_lt _ _)) by lia.
    - cbn [decoding_err reason ret].
      repeat split; try discriminate; try tauto; try lia. }
  pose proof (oaep_pad_length from num ltac:(lia)) as Lpad.
  pose proof (oaep_DB_length hash mgf_hash _ num Hh Hm Lpad Hnum) as LDB.
  fold DB hLen in LDB.
  assert (LlH : Z.of_nat (length lHash) = hLen) by now apply md_ok_length.
  eexists. split; [now apply decode_unmask|].
  fold hash. fold mgf_hash. fold hLen. fold tlen. fold flen. fold DB.
  fold lHash.
  assert (Hcmp : timingsafe_memcmp DB lHash (Z.to_nat hLen) = 0
                 <-> firstn (Z.to_nat hLen) DB = lHash).
  { rewrite timingsafe_memcmp_eq by lia.
    now rewrite (firstn_all2 (n := Z.to_nat hLen) lHash) by lia. }
  assert (Hscan : scan_zeros (Z.to_nat (num - 1 - hLen - hLen)) DB hLen
                  = hLen + Z.of_nat match sep with
                                    | Some k => k
                                    | None => Z.to_nat (num - 1 - hLen - hLen)
                                    end).
  { apply scan_zeros_first_nonzero; [lia|]. rewrite length_skipn. lia. }
  rewrite Hscan. clear Hscan.
  destruct (Z.eqb_spec (timingsafe_memcmp DB lHash (Z.to_nat hLen)) 0)
    as [E0|E0]; rewrite Hcmp in E0; cbn [negb orb].
  2:{ cbn [decoding_err reason ret].
      repeat split; try discriminate; try tauto; try lia.
      all: try (intros (_ & _ & ? & _); contradiction). }
  destruct (Z.ltb_spec (num - 1 - flen) 0) as [Hbad|Hgood].
  { cbn [decoding_err reason ret].
    repeat split; try discriminate; try tauto; try lia.
    all: try (intros (_ & ? & _); lia). }
  cbv zeta.
  destruct sep as [k|] eqn:Esep.
  2:{ rewrite (proj2 (Z.eqb_eq _ _)) by lia. cbn [orb decoding_err reason ret].
      repeat split; try discriminate; try tauto; try lia.
      all: try (intros (_ & _ & _ & k & ? & _); discriminate). }
  destruct (first_nonzero_Some _ _ Esep) as (Hk & _ & _).
  rewrite length_skipn in Hk.
  rewrite (proj2 (Z.eqb_neq _ _)) by lia. cbn [orb].
  replace (Z.to_nat (hLen + Z.of_nat k)) with (Z.to_nat hLen + k)%nat by lia.
  assert (Lpt : Z.of_nat (length (skipn (Z.to_nat hLen + k + 1) DB))
                = num - 1 - hLen - (hLen + Z.of_nat k + 1))
    by (rewrite length_skipn; lia).
  destruct (Z.eqb_spec (nth (Z.to_nat hLen + k) DB 0) 1) as [E1|E1];
    cbn [negb].
  2:{ cbn [decoding_err reason ret].
      repeat split; try discriminate; try tauto; try lia.
      all: try (intros (_ & _ & _ & k' & [= <-] & ? & _); contradiction). }
  destruct (Z.ltb_spec tlen (num - 1 - hLen - (hLen + Z.of_nat k + 1)))
    as [Hshort|Hroom]; cbn [reason ret].
  - split.
    { intros [?|[?|[?|[?|(k' & [= <-] & ?)]]]];
        lia || contradiction || discriminate. }
    repeat split; try discriminate; try tauto; try lia.
    all: try (exists k; repeat split; try assumption; lia).
  - split.
    { intros [?|[?|[?|[?|(k' & [= <-] & ?)]]]];
        lia || contradiction || discriminate. }
    repeat split; try discriminate; try tauto; try lia.
    all: try (intros (_ & _ & _ & k' & [= <-] & _ & ?); lia).
Qed.

(** *** Round trip *)

Lemma xor_bytes_cancel (a m : list Z) :
  length a = length m -> xor_bytes (xor_bytes a m) m = a.
Proof.
  revert m. induction a as [|x a IH]; intros [|y m] E; try discriminate;
    [reflexivity|].
  unfold xor_bytes in *. cbn [combine map fst snd]. f_equal.
  - rewrite Z.lxor_assoc, Z.lxor_nilpotent. apply Z.lxor_0_r.
  - apply IH. now injection E.
Qed.

(** Unmasking an encoded block gives back the data block that was masked. *)
Lemma oaep_DB_encode (hash mgf_hash : EVP_MD) (msg label seed : list Z)
    (emLen : Z) :
  md_ok hash -> md_ok mgf_hash ->
  Z.of_nat (length seed) = EVP_MD_size hash ->
  Z.of_nat (length msg) <= emLen - 2 * EVP_MD_size hash - 2 ->
  oaep_DB hash mgf_hash
    (skipn 1 (oaep_encode_spec hash mgf_hash msg label seed emLen)) emLen
  = digest_of hash label
      ++ repeat 0 (Z.to_nat (emLen - Z.of_nat (length msg)
                             - 2 * EVP_MD_size hash - 2))
      ++ [1] ++ msg.
Proof.
  intros Hh Hm Ls Hfit. unfold oaep_encode_spec, oaep_DB.
  set (h := EVP_MD_size hash) in *.
  assert (0 < h) by apply Hh.
  assert (0 < EVP_MD_size mgf_hash) by apply Hm.
  assert (Hlen : forall x,
            Z.of_nat (length (digest_of mgf_hash x)) = EVP_MD_size mgf_hash)
    by (intros; now apply md_ok_length).
  set (DB := digest_of hash label ++ _).
  assert (LDB : Z.of_nat (length DB) = emLen - h - 1).
  { unfold DB. rewrite !length_app, repeat_length. cbn [length].
    pose proof (md_ok_length hash label Hh) as Lh. fold h in Lh. lia. }
  set (mgf1 := mgf1_spec (digest_of mgf_hash) (EVP_MD_size mgf_hash)).
  set (dbMask := mgf1 seed (emLen - h - 1)).
  assert (LdbMask : Z.of_nat (length dbMask) = emLen - h - 1)
    by (apply mgf1_spec_length; lia || assumption).
  set (mdb := xor_bytes DB dbMask).
  assert (Lmdb : length mdb = length DB)
    by (apply xor_bytes_length; lia).
  set (seedMask := mgf1 mdb h).
  assert (LseedMask : Z.of_nat (length seedMask) = h)
    by (apply mgf1_spec_length; lia || assumption).
  set (ms := xor_bytes seed seedMask).
  assert (Lms : length ms = length seed)
    by (apply xor_bytes_length; lia).
  cbn [app skipn].
  rewrite firstn_app, skipn_app.
  rewrite (firstn_all2 (n := Z.to_nat h) ms) by lia.
  rewrite (skipn_all2 (n := Z.to_nat h) ms) by lia.
  replace (Z.to_nat h - length ms)%nat with 0%nat by lia.
  cbn [firstn skipn app]. rewrite app_nil_r.
  rewrite (firstn_all2 (n := Z.to_nat (emLen - 1 - h)) mdb) by lia.
  fold seedMask. unfold ms. rewrite xor_bytes_cancel by lia.
  replace (emLen - 1 - h) with (emLen - h - 1) by lia.
  fold dbMask. unfold mdb. apply xor_bytes_cancel. lia.
Qed.

(** C1.  With digests that behave and memory for the work buffers: a
    message [msg] with [|msg| <= emLen - 2 * hLen - 2] is encoded into an
    [emLen]-byte block [em] that starts with a zero byte, and decoding
    [em] without its leading zero byte, or without any [j >= 1] leading
    zero bytes (the caller strips them, see section 4.3), with the same
    label and digests into a buffer of at least [|msg|] bytes returns
    [|msg|] and puts [msg] at the start of the buffer. *)
Theorem OAEP_roundtrip (sha1 : EVP_MD) (malloc : Z -> bool) (fuel : nat)
    (entropy to msg label out : list Z) (md mgf1md : option EVP_MD) :
  let hash := match md with Some m => m | None => sha1 end in
  let mgf_hash := match mgf1md with Some m => m | None => hash end in
  let hLen := EVP_MD_size hash in
  let emLen := Z.of_nat (length to) in
  let mLen := Z.of_nat (length msg) in
  md_ok hash -> md_ok mgf_hash ->
  malloc (emLen - 1 - hLen) = true ->
  malloc (emLen - 1 - hLen + (emLen - 1)) = true ->
  hLen <= Z.of_nat (length entropy) ->
  (Z.to_nat emLen <= fuel)%nat ->
  mLen <= emLen - 2 * hLen - 2 ->
  mLen <= Z.of_nat (length out) ->
  exists em,
    RSA_padding_add_PKCS1_OAEP_mgf1 sha1 malloc fuel entropy to msg label
      md mgf1md
    = Some {| ret := 1; reason := None; to_after := em |}
    /\ firstn 1 em = [0]
    /\ forall j, (1 <= j)%nat -> firstn j em = repeat 0 j ->
       RSA_padding_check_PKCS1_OAEP_mgf1 sha1 malloc fuel out (skipn j em)
         emLen label md mgf1md
       = Some {| ret := mLen; reason := None;
                 to_after := msg ++ skipn (length msg) out |}.
Proof.
  intros hash mgf_hash hLen emLen mLen Hh Hm Hmal1 Hmal2 Hent Hfuel Hfit
    Hout.
  assert (Hpos : 0 < hLen) by apply Hh.
  set (seed := firstn (Z.to_nat hLen) entropy).
  assert (Lseed : Z.of_nat (length seed) = hLen)
    by (unfold seed; rewrite length_firstn; lia).
  set (em := oaep_encode_spec hash mgf_hash msg label seed emLen).
  assert (Lem : Z.of_nat (length em) = emLen)
    by (apply oaep_encode_spec_length; assumption).
  exists em. split; [now apply encode_success|].
  split; [reflexivity|].
  intros j Hj Hzeros.
  assert (Hjem : (j <= length em)%nat).
  { apply (f_equal (@length Z)) in Hzeros.
    rewrite length_firstn, repeat_length in Hzeros. lia. }
  (* the zero-padded block is [em] without its first byte *)
  assert (Epad : oaep_pad (skipn j em) emLen = skipn 1 em).
  { unfold oaep_pad. rewrite length_skipn.
    rewrite (proj2 (Z.ltb_ge _ _)) by lia.
    assert (Eem : em = repeat 0 j ++ skipn j em)
      by (rewrite <- Hzeros; symmetry; apply firstn_skipn).
    transitivity (skipn 1 (repeat 0 j ++ skipn j em));
      [|now rewrite <- Eem].
    destruct j as [|j]; [lia|]. cbn [repeat app skipn].
    do 2 f_equal. lia. }
  rewrite decode_unmask; try assumption; try (fold hash; fold hLen; lia).
  fold hash. fold mgf_hash. fold hLen. rewrite Epad.
  rewrite (oaep_DB_encode hash mgf_hash msg label seed emLen Hh Hm Lseed Hfit
           : oaep_DB hash mgf_hash (skipn 1 em) emLen = _).
  fold hLen. fold mLen.
  set (lHash := digest_of hash label).
  assert (LlH : Z.of_nat (length lHash) = hLen) by now apply md_ok_length.
  set (ps := Z.to_nat (emLen - mLen - 2 * hLen - 2)).
  set (DB := lHash ++ repeat 0 ps ++ [1] ++ msg).
  assert (Eskip : skipn (Z.to_nat hLen) DB = repeat 0 ps ++ 1 :: msg).
  { unfold DB. rewrite skipn_app, skipn_all2 by lia.
    replace (Z.to_nat hLen - length lHash)%nat with 0%nat by lia.
    reflexivity. }
  (* label hash *)
  assert (Ecmp : timingsafe_memcmp DB lHash (Z.to_nat hLen) = 0).
  { apply timingsafe_memcmp_eq; [unfold DB; rewrite length_app; lia | lia |].
    unfold DB. rewrite firstn_app, !firstn_all2 by lia.
    replace (Z.to_nat hLen - length lHash)%nat with 0%nat by lia.
    apply app_nil_r. }
  rewrite Ecmp. cbn [Z.eqb negb orb].
  rewrite length_skipn.
  rewrite (proj2 (Z.ltb_ge _ _)) by lia.
  (* separator *)
  cbv zeta.
  rewrite scan_zeros_first_nonzero;
    [| lia | rewrite Eskip, length_app, repeat_length; cbn [length];
             unfold ps, mLen; lia].
  rewrite Eskip, first_nonzero_zeros by discriminate.
  rewrite (proj2 (Z.eqb_neq _ _)) by (unfold ps; lia).
  assert (Enth : nth (Z.to_nat (hLen + Z.of_nat ps)) DB 0 = 1).
  { unfold DB. rewrite app_nth2 by lia. rewrite app_nth2
      by (rewrite repeat_length; lia).
    rewrite repeat_length.
    replace (Z.to_nat (hLen + Z.of_nat ps) - length lHash - ps)%nat
      with 0%nat by lia.
    reflexivity. }
  rewrite Enth. cbn [Z.eqb negb orb].
  replace (emLen - 1 - hLen - (hLen + Z.of_nat ps + 1)) with mLen
    by (unfold ps; lia).
  rewrite (proj2 (Z.ltb_ge _ _)) by lia.
  do 2 f_equal.
  assert (Eload : load DB (hLen + Z.of_nat ps + 1) mLen = msg).
  { unfold load, DB.
    rewrite skipn_app, skipn_all2 by lia. cbn [app].
    rewrite skipn_app, skipn_all2 by (rewrite repeat_length; lia).
    rewrite repeat_length. cbn [app].
    replace (Z.to_nat (hLen + Z.of_nat ps + 1) - length lHash - ps)%nat
      with 1%nat by lia.
    cbn [skipn app]. apply firstn_all2. unfold mLen. lia. }
  rewrite Eload. unfold store. cbn [Z.to_nat firstn app Nat.add].
  reflexivity.
Qed.

(** *** The output buffer of the decoder *)

Lemma scan_zeros_bounds (n : nat) (db : list Z) (i : Z) :
  i <= scan_zeros n db i <= i + Z.of_nat n.
Proof.
  revert i. induction n as [|n IH]; intros i; cbn [scan_zeros]; [lia|].
  destruct (negb _); [lia|]. specialize (IH (i + 1)). lia.
Qed.

Lemma PKCS1_MGF1_loop_length (dgst : EVP_MD) (seed : list Z) (len : Z)
    (fuel : nat) :
  md_wf dgst ->
  forall i outlen mask mask',
    Z.of_nat (length mask) = outlen -> outlen <= len ->
    PKCS1_MGF1_loop fuel dgst seed len i outlen mask = Some (0, mask') ->
    Z.of_nat (length mask') = len.
Proof.
  intros Hwf. induction fuel as [|fuel IH]; intros i outlen mask mask' Lm Hle;
    cbn [PKCS1_MGF1_loop]; destruct (Z.ltb_spec outlen len) as [Hlt|Hge];
    try discriminate; try (intros [= <-]; lia).
  unfold EVP_DigestFinal_ex.
  destruct (EVP_Digest dgst _) as [d|] eqn:Ed; [|discriminate].
  pose proof (Hwf _ _ Ed) as Ld.
  destruct (Z.leb_spec (outlen + EVP_MD_size dgst) len) as [Hfull|Hpart].
  - apply IH; [rewrite length_app; lia | lia].
  - apply IH; [|lia]. rewrite length_app, length_firstn. lia.
Qed.

Lemma PKCS1_MGF1_length (dgst : EVP_MD) (seed : list Z) (len : Z)
    (fuel : nat) (rv : Z) (mask : list Z) :
  md_wf dgst -> 0 <= len ->
  PKCS1_MGF1 fuel len seed dgst = Some (rv, mask) -> rv = 0 ->
  Z.of_nat (length mask) = len.
Proof.
  intros Hwf Hlen. unfold PKCS1_MGF1.
  destruct (EVP_MD_size dgst <? 0); [intros [= <- _]; discriminate|].
  intros E ->.
  now apply (PKCS1_MGF1_loop_length dgst seed len fuel Hwf 0 0 [] mask).
Qed.

(** The shape of the output buffer after the decoder has returned, for
    every digest and allocator. *)
Lemma decode_output_shape (sha1 : EVP_MD) (malloc : Z -> bool)
    (fuel : nat) (to from : list Z) (num : Z) (param : list Z)
    (md mgf1md : option EVP_MD) (r : padding_result) :
  let hash := match md with Some m => m | None => sha1 end in
  let mgf_hash := match mgf1md with Some m => m | None => hash end in
  RSA_padding_check_PKCS1_OAEP_mgf1 sha1 malloc fuel to from num param
    md mgf1md = Some r ->
  (ret r = -1 /\ to_after r = to)
  \/ (0 <= ret r <= Z.of_nat (length to) /\ reason r = None
      /\ (md_wf mgf_hash -> 0 <= EVP_MD_size hash ->
          exists m,
            Z.of_nat (length m) = ret r
            /\ to_after r = m ++ skipn (length m) to)).
Proof.
  intros hash mgf_hash. unfold RSA_padding_check_PKCS1_OAEP_mgf1.
  fold hash. fold mgf_hash.
  set (h := EVP_MD_size hash). set (flen := Z.of_nat (length from)).
  destruct (Z.ltb_spec (num - 1) (2 * h + 1)) as [?|Hnum];
    [intros [= <-]; left; now split|].
  destruct (if num - 1 - flen <? 0 then (true, 0, num - 1)
            else (false, num - 1 - flen, flen)) as [[bad lzero] flen'].
  destruct (negb (malloc _)); [intros [= <-]; left; now split|].
  destruct (PKCS1_MGF1 fuel h _ mgf_hash) as [[rv1 seed]|]; [|discriminate].
  destruct (negb (rv1 =? 0)); [intros [= <-]; left; now split|].
  destruct (PKCS1_MGF1 fuel (num - 1 - h) _ mgf_hash) as [[rv2 db]|] eqn:E2;
    [|discriminate].
  destruct (Z.eqb_spec rv2 0) as [->|?]; cbn [negb];
    [|intros [= <-]; left; now split].
  destruct (EVP_Digest hash param) as [phash|];
    [|intros [= <-]; left; now split].
  destruct (negb _ || bad); [intros [= <-]; left; now split|].
  cbv zeta.
  set (DB := xor_loop _ db _).
  pose proof (scan_zeros_bounds (Z.to_nat (num - 1 - h - h)) DB h) as Hi.
  set (i := scan_zeros _ DB h) in *.
  destruct (Z.eqb_spec i (num - 1 - h)) as [?|Hne]; cbn [orb];
    [intros [= <-]; left; now split|].
  destruct (negb _); [intros [= <-]; left; now split|].
  destruct (Z.ltb_spec (Z.of_nat (length to)) (num - 1 - h - (i + 1)));
    intros [= <-]; [left; now split|].
  right. cbn [ret reason to_after]. split; [lia|]. split; [reflexivity|].
  intros Hwf Hh.
  assert (LDB : Z.of_nat (length DB) = num - 1 - h).
  { unfold DB. rewrite xor_loop_length.
    refine (PKCS1_MGF1_length mgf_hash _ _ fuel 0 db Hwf _ E2 eq_refl).
    lia. }
  exists (load DB (i + 1) (num - 1 - h - (i + 1))). split.
  - apply load_length; lia.
  - unfold store. cbn [Z.to_nat firstn app Nat.add]. reflexivity.
Qed.

(** What a successful return of the decoder says about its arguments, for
    every digest. *)
Lemma decode_success_inv (sha1 : EVP_MD) (malloc : Z -> bool)
    (fuel : nat) (to from : list Z) (num : Z) (param : list Z)
    (md mgf1md : option EVP_MD) (r : padding_result) :
  let hash := match md with Some m => m | None => sha1 end in
  let hLen := EVP_MD_size hash in
  RSA_padding_check_PKCS1_OAEP_mgf1 sha1 malloc fuel to from num param
    md mgf1md = Some r ->
  0 <= ret r ->
  2 * hLen + 2 <= num
  /\ Z.of_nat (length from) <= num - 1
  /\ malloc (num - 1 - hLen + (num - 1)) = true
  /\ ret r <= num - 2 * hLen - 2.
Proof.
  intros hash hLen. unfold RSA_padding_check_PKCS1_OAEP_mgf1.
  fold hash. fold hLen.
  set (mgf_hash := match mgf1md with Some m => m | None => hash end).
  set (flen := Z.of_nat (length from)).
  destruct (Z.ltb_spec (num - 1) (2 * hLen + 1)) as [?|Hnum];
    [intros [= <-]; unfold decoding_err, err; cbn [ret]; lia|].
  destruct (Z.ltb_spec (num - 1 - flen) 0) as [Hbad|Hfl].
  - destruct (negb (malloc _)); [intros [= <-]; unfold decoding_err, err; cbn [ret]; lia|].
    destruct (PKCS1_MGF1 fuel hLen _ mgf_hash) as [[rv1 seed]|];
      [|discriminate].
    destruct (negb (rv1 =? 0)); [intros [= <-]; unfold decoding_err, err; cbn [ret]; lia|].
    destruct (PKCS1_MGF1 fuel (num - 1 - hLen) _ mgf_hash) as [[rv2 db]|];
      [|discriminate].
    destruct (negb (rv2 =? 0)); [intros [= <-]; unfold decoding_err, err; cbn [ret]; lia|].
    destruct (EVP_Digest hash param) as [phash|];
      [|intros [= <-]; unfold decoding_err, err; cbn [ret]; lia].
    rewrite orb_true_r. intros [= <-]; unfold decoding_err, err; cbn [ret]; lia.
  - destruct (malloc (num - 1 - hLen + (num - 1))) eqn:Hmal; cbn [negb];
      [|intros [= <-]; unfold decoding_err, err; cbn [ret]; lia].
    destruct (PKCS1_MGF1 fuel hLen _ mgf_hash) as [[rv1 seed]|];
      [|discriminate].
    destruct (negb (rv1 =? 0)); [intros [= <-]; unfold decoding_err, err; cbn [ret]; lia|].
    destruct (PKCS1_MGF1 fuel (num - 1 - hLen) _ mgf_hash) as [[rv2 db]|];
      [|discriminate].
    destruct (negb (rv2 =? 0)); [intros [= <-]; unfold decoding_err, err; cbn [ret]; lia|].
    destruct (EVP_Digest hash param) as [phash|];
      [|intros [= <-]; unfold decoding_err, err; cbn [ret]; lia].
    destruct (negb _ || false); [intros [= <-]; unfold decoding_err, err; cbn [ret]; lia|].
    match goal with
    | |- context [scan_zeros ?n ?d ?i] =>
        pose proof (scan_zeros_bounds n d i) as Hscan;
        set (k := scan_zeros n d i) in *
    end.
    destruct (_ || _); [intros [= <-]; unfold decoding_err, err; cbn [ret]; lia|].
    destruct (_ <? _); intros [= <-]; unfold decoding_err, err; cbn [ret]; lia.
Qed.

(** With digests that behave, what a successful decode copies: the bytes
    of [DB] behind the separator 0x01 that follows the label hash and the
    zero bytes. *)
Lemma decode_success_bytes (sha1 : EVP_MD) (malloc : Z -> bool)
    (fuel : nat) (to from : list Z) (num : Z) (param : list Z)
    (md mgf1md : option EVP_MD) (r : padding_result) :
  let hash := match md with Some m => m | None => sha1 end in
  let mgf_hash := match mgf1md with Some m => m | None => hash end in
  let hLen := EVP_MD_size hash in
  let DB := oaep_DB hash mgf_hash (oaep_pad from num) num in
  md_ok hash -> md_ok mgf_hash ->
  (Z.to_nat num <= fuel)%nat ->
  RSA_padding_check_PKCS1_OAEP_mgf1 sha1 malloc fuel to from num param
    md mgf1md = Some r ->
  0 <= ret r ->
  exists k,
    first_nonzero (skipn (Z.to_nat hLen) DB) = Some k
    /\ nth (Z.to_nat hLen + k) DB 0 = 1
    /\ Z.of_nat (length (skipn (Z.to_nat hLen + k + 1) DB)) = ret r
    /\ to_after r
       = skipn (Z.to_nat hLen + k + 1) DB ++ skipn (Z.to_nat (ret r)) to.
Proof.
  intros hash mgf_hash hLen DB Hh Hm Hfuel Hdec Hret.
  assert (Hpos : 0 < hLen) by apply Hh.
  destruct (decode_success_inv sha1 malloc fuel to from num param md mgf1md
              r Hdec Hret) as (Hnum & Hflen & Hmal & _).
  fold hash in Hnum, Hmal. fold hLen in Hnum, Hmal.
  rewrite decode_unmask in Hdec; try assumption.
  fold hash in Hdec. fold mgf_hash in Hdec. fold hLen in Hdec.
  fold DB in Hdec.
  set (dblen := num - 1 - hLen) in *.
  assert (LDB : Z.of_nat (length DB) = dblen).
  { apply oaep_DB_length; try assumption. apply oaep_pad_length. lia. }
  destruct (Z.eqb_spec (timingsafe_memcmp DB (digest_of hash param)
                          (Z.to_nat hLen)) 0) as [_|_];
    [|injection Hdec as <-; cbn in Hret; lia].
  destruct (num - 1 - Z.of_nat (length from) <? 0);
    [injection Hdec as <-; cbn in Hret; lia|].
  cbn [negb orb] in Hdec.
  assert (Lsk : length (skipn (Z.to_nat hLen) DB) = Z.to_nat (dblen - hLen))
    by (rewrite length_skipn; lia).
  rewrite (scan_zeros_first_nonzero _ DB hLen ltac:(lia) Lsk) in Hdec.
  destruct (first_nonzero (skipn (Z.to_nat hLen) DB)) as [k|] eqn:Efn.
  2:{ rewrite (proj2 (Z.eqb_eq _ _)) in Hdec by lia.
      injection Hdec as <-; cbn in Hret; lia. }
  destruct (first_nonzero_Some _ _ Efn) as (Hk & _ & _).
  rewrite length_skipn in Hk.
  destruct (Z.eqb_spec (hLen + Z.of_nat k) dblen) as [?|_];
    [injection Hdec as <-; cbn in Hret; lia|].
  destruct (Z.eqb_spec (nth (Z.to_nat (hLen + Z.of_nat k)) DB 0) 1)
    as [Esep|_]; [|injection Hdec as <-; cbn in Hret; lia].
  cbn [negb orb] in Hdec.
  destruct (Z.ltb_spec (Z.of_nat (length to))
              (dblen - (hLen + Z.of_nat k + 1)));
    injection Hdec as <-; cbn [ret] in Hret; [lia|].
  cbn [ret to_after]. exists k.
  replace (Z.to_nat hLen + k)%nat with (Z.to_nat (hLen + Z.of_nat k))
    by lia.
  split; [reflexivity|]. split; [exact Esep|].
  replace (Z.to_nat (hLen + Z.of_nat k) + 1)%nat
    with (Z.to_nat (hLen + Z.of_nat k + 1)) by lia.
  assert (Em : load DB (hLen + Z.of_nat k + 1)
                 (dblen - (hLen + Z.of_nat k + 1))
               = skipn (Z.to_nat (hLen + Z.of_nat k + 1)) DB).
  { unfold load. apply firstn_all2. rewrite length_skipn. lia. }
  rewrite Em. split; [rewrite length_skipn; lia|].
  unfold store. cbn [Z.to_nat firstn app Nat.add].
  do 2 f_equal. rewrite length_skipn. lia.
Qed.

(** C10.  Whenever the decoder returns, either it failed (-1) and the
    caller's output buffer is byte for byte what it was, or it succeeded
    with the plaintext length [mlen >= 0], no reason on the error queue and
    [mlen <= tlen]; then the buffer holds [mlen] new bytes followed by its
    old bytes from [mlen] on.  With digests that behave the new bytes are
    the recovered plaintext: what follows, in the unmasked data block
    [DB], the separator 0x01 found behind the label hash and the zero
    bytes. *)
Theorem OAEP_decode_output_buffer (sha1 : EVP_MD) (malloc : Z -> bool)
    (fuel : nat) (to from : list Z) (num : Z) (param : list Z)
    (md mgf1md : option EVP_MD) (r : padding_result) :
  let hash := match md with Some m => m | None => sha1 end in
  let mgf_hash := match mgf1md with Some m => m | None => hash end in
  let hLen := EVP_MD_size hash in
  let DB := oaep_DB hash mgf_hash (oaep_pad from num) num in
  RSA_padding_check_PKCS1_OAEP_mgf1 sha1 malloc fuel to from num param
    md mgf1md = Some r ->
  (ret r = -1 /\ to_after r = to)
  \/ (0 <= ret r <= Z.of_nat (length to) /\ reason r = None
      /\ (md_wf mgf_hash -> 0 <= hLen ->
          exists m,
            Z.of_nat (length m) = ret r
            /\ to_after r = m ++ skipn (length m) to)
      /\ (md_ok hash -> md_ok mgf_hash -> (Z.to_nat num <= fuel)%nat ->
          exists k,
            first_nonzero (skipn (Z.to_nat hLen) DB) = Some k
            /\ nth (Z.to_nat hLen + k) DB 0 = 1
            /\ Z.of_nat (length (skipn (Z.to_nat hLen + k + 1) DB)) = ret r
            /\ to_after r
               = skipn (Z.to_nat hLen + k + 1) DB
                   ++ skipn (Z.to_nat (ret r)) to)).
Proof.
  intros hash mgf_hash hLen DB Hdec.
  destruct (decode_output_shape sha1 malloc fuel to from num param md
              mgf1md r Hdec) as [Hfail|(Hret & Hreason & Hshape)];
    [now left|].
  right. split; [exact Hret|]. split; [exact Hreason|].
  split; [exact Hshape|].
  intros Hh Hm Hfuel.
  exact (decode_success_bytes sha1 malloc fuel to from num param md mgf1md
           r Hh Hm Hfuel Hdec (proj1 Hret)).
Qed.

(** *** The theorems on a concrete block *)

Lemma OAEP_roundtrip_witness :
  exists em,
    RSA_padding_add_PKCS1_OAEP_mgf1 toy_md (fun _ => true) 8 [17; 34]
      [9; 9; 9; 9; 9; 9; 9; 9] [72; 105] [] (Some toy_md) None
    = Some {| ret := 1; reason := None; to_after := em |}
    /\ RSA_padding_check_PKCS1_OAEP_mgf1 toy_md (fun _ => true) 8 [0; 0; 0]
         (skipn 1 em) 8 [] (Some toy_md) None
       = Some {| ret := 2; reason := None; to_after := [72; 105; 0] |}.
Proof.
  destruct (OAEP_roundtrip toy_md (fun _ => true) 8 [17; 34]
              [9; 9; 9; 9; 9; 9; 9; 9] [72; 105] [] [0; 0; 0] (Some toy_md) None
              toy_md_ok toy_md_ok eq_refl eq_refl
              ltac:(cbn; lia) ltac:(cbn; lia) ltac:(cbn; lia) ltac:(cbn; lia))
    as (em & Henc & Hzero & Hdec).
  exists em. split; [exact Henc|].
  exact (Hdec 1%nat (le_n 1) Hzero).
Defined.

(** The decoder wants the block without its leading zero byte: handed all
    [emLen] bytes with [num = emLen], it takes the caller length for too
    long and answers with the decoding error. *)
Lemma OAEP_decode_whole_block :
  RSA_padding_check_PKCS1_OAEP_mgf1 toy_md (fun _ => true) 8 [0; 0; 0]
    [0; 92; 111; 51; 51; 105; 124; 2] 8 [] (Some toy_md) None
  = Some (decoding_err [0; 0; 0]).
Proof. reflexivity. Qed.

Lemma OAEP_decode_error_kinds_witness :
  RSA_padding_check_PKCS1_OAEP_mgf1 toy_md (fun _ => true) 8 [0; 0; 0]
    [92; 111; 51; 51; 105; 124; 2] 8 [65] (Some toy_md) None
  = Some (decoding_err [0; 0; 0]).
Proof.
  destruct (OAEP_decode_error_kinds toy_md (fun _ => true) 8 [0; 0; 0]
              [92; 111; 51; 51; 105; 124; 2] 8 [65] (Some toy_md) None
              toy_md_ok toy_md_ok eq_refl ltac:(cbn; lia))
    as (r & Hr & Hbad & _).
  rewrite Hr. f_equal. apply Hbad.
  right; right; left. vm_compute. discriminate.
Defined.

Lemma OAEP_decode_output_buffer_witness :
  let DB :=
    oaep_DB toy_md toy_md (oaep_pad [92; 111; 51; 51; 105; 124; 2] 8) 8 in
  exists k,
    first_nonzero (skipn (Z.to_nat 2) DB) = Some k
    /\ nth (Z.to_nat 2 + k) DB 0 = 1
    /\ Z.of_nat (length (skipn (Z.to_nat 2 + k + 1) DB)) = 2
    /\ [72; 105; 7]
       = skipn (Z.to_nat 2 + k + 1) DB ++ skipn (Z.to_nat 2) [5; 6; 7].
Proof.
  intros DB.
  destruct (OAEP_decode_output_buffer toy_md (fun _ => true) 8 [5; 6; 7]
              [92; 111; 51; 51; 105; 124; 2] 8 [] (Some toy_md) None
              {| ret := 2; reason := None; to_after := [72; 105; 7] |}
              eq_refl) as [[Hfail _]|(_ & _ & _ & Hbytes)];
    [discriminate Hfail|].
  exact (Hbytes toy_md_ok toy_md_ok ltac:(cbn; lia)).
Defined.

(** *** SM2 verification *)

Lemma BN_cmp_lt (a b : Z) : (BN_cmp a b <? 0) = (a <? b).
Proof.
  unfold BN_cmp, Z.ltb. destruct (a ?= b); reflexivity.
Qed.

Lemma BN_cmp_le (a b : Z) : (BN_cmp a b <=? 0) = (a <=? b).
Proof.
  unfold BN_cmp, Z.leb. destruct (a ?= b); reflexivity.
Qed.

Lemma BN_cmp_eq (a b : Z) : (BN_cmp a b =? 0) = (a =? b).
Proof.
  unfold BN_cmp. rewrite (Z.eqb_compare a b).
  destruct (a ?= b); reflexivity.
Qed.

Lemma BN_nnmod_pos (a m : Z) : 0 < m -> BN_nnmod a m = Some (a mod m).
Proof.
  intros Hm. unfold BN_nnmod.
  rewrite (proj2 (Z.eqb_neq _ _)), Z.abs_eq by lia. reflexivity.
Qed.

(** C3.  For a group of order [n], [SM2_sig_verify] returns 1 exactly
    when [r] and [s] lie in [[1, n - 1]], [t = (r + s) mod n] is not zero,
    the point [P = s * G + t * PA] is not the point at infinity and
    [r = (e + x1) mod n] for the affine x-coordinate [x1] of [P]; in every
    other case it returns 0. *)
Theorem SM2_sig_verify_accepts (key : EC_KEY) (sig : ECDSA_SIG) (e n : Z) :
  let group := EC_KEY_get0_group key in
  let r := sig_r sig in
  let s := sig_s sig in
  let t := (r + s) mod n in
  let P := EC_POINT_mul group s (Some (EC_KEY_get0_public_key key, t)) in
  let x1 := EC_POINT_affine_x group P in
  EC_GROUP_get_order group = Some n ->
  (fst (SM2_sig_verify key sig e) = 1 <->
   1 <= r <= n - 1 /\ 1 <= s <= n - 1 /\ t <> 0
   /\ EC_POINT_is_at_infinity group P = false
   /\ r = (e + x1) mod n)
  /\ (fst (SM2_sig_verify key sig e) <> 1 ->
      fst (SM2_sig_verify key sig e) = 0).
Proof.
  intros group r s t P x1 Hn. unfold SM2_sig_verify.
  fold group. rewrite Hn. fold r. fold s.
  rewrite !BN_cmp_lt, !BN_cmp_le. unfold BN_value_one.
  destruct (Z.ltb_spec r 1); cbn [orb fst]; [split; [split|]; lia|].
  destruct (Z.ltb_spec s 1); cbn [orb fst]; [split; [split|]; lia|].
  destruct (Z.leb_spec n r); cbn [orb fst]; [split; [split|]; lia|].
  destruct (Z.leb_spec n s); cbn [orb fst]; [split; [split|]; lia|].
  unfold BN_mod_add. rewrite !BN_nnmod_pos by lia. fold t.
  unfold BN_is_zero.
  destruct (Z.eqb_spec t 0); cbn [fst]; [split; [split|]; lia|].
  unfold EC_POINT_get_affine_coordinates_GFp, x1, P.
  destruct (EC_POINT_is_at_infinity group _); cbn [fst];
    [split; [split; [discriminate
                    | intros (_ & _ & _ & ? & _); discriminate]
           | reflexivity]|].
  rewrite BN_nnmod_pos by lia. rewrite BN_cmp_eq.
  match goal with
  | |- context [if ?a =? ?b then _ else _] => destruct (Z.eqb_spec a b)
  end; cbn [fst]; split; try lia.
  - split; [intros _; repeat split; first [lia | assumption | reflexivity]
           | reflexivity].
  - split; [lia | intros (_ & _ & _ & _ & ?); contradiction].
Qed.

Lemma SM2_sig_verify_accepts_witness :
  fst (SM2_sig_verify toy_key {| sig_r := 11; sig_s := 6 |} 5) = 1 <->
  1 <= 11 <= 19 - 1 /\ 1 <= 6 <= 19 - 1 /\ (11 + 6) mod 19 <> 0
  /\ EC_POINT_is_at_infinity (curve_group toy_curve)
       (EC_POINT_mul (curve_group toy_curve) 6
          (Some (ec_aff 6 3, (11 + 6) mod 19))) = false
  /\ 11 = (5 + EC_POINT_affine_x (curve_group toy_curve)
                 (EC_POINT_mul (curve_group toy_curve) 6
                    (Some (ec_aff 6 3, (11 + 6) mod 19)))) mod 19.
Proof.
  exact (proj1 (SM2_sig_verify_accepts toy_key {| sig_r := 11; sig_s := 6 |}
                  5 19 eq_refl)).
Defined.

(** *** SM2 signature generation *)

(** The loop body never reports a failure of the random source. *)
Lemma SM2_sig_gen_iter_not_random (key : EC_KEY) (order e k : Z) :
  SM2_sig_gen_iter key order e k
  <> Failed SM2_R_RANDOM_NUMBER_GENERATION_FAILED.
Proof.
  unfold SM2_sig_gen_iter.
  destruct (EC_POINT_get_affine_coordinates_GFp _ _); [|discriminate].
  destruct (BN_mod_add _ _ _); [|discriminate].
  destruct (BN_is_zero _); [discriminate|].
  destruct (BN_cmp _ _ =? 0); [discriminate|].
  destruct (BN_mod_inverse _ _); [|discriminate].
  destruct (BN_mod_mul _ _ _); [|discriminate].
  destruct (BN_mod_mul _ _ _); discriminate.
Qed.

(** The reasons the loop body can report. *)
Lemma SM2_sig_gen_iter_reasons (key : EC_KEY) (order e k : Z)
    (reason : SM2_reason) :
  SM2_sig_gen_iter key order e k = Failed reason ->
  reason = ERR_R_EC_LIB \/ reason = ERR_R_BN_LIB.
Proof.
  unfold SM2_sig_gen_iter.
  destruct (EC_POINT_get_affine_coordinates_GFp _ _);
    [|intros [= <-]; now left].
  destruct (BN_mod_add _ _ _); [|intros [= <-]; now right].
  destruct (BN_is_zero _); [discriminate|].
  destruct (BN_cmp _ _ =? 0); [discriminate|].
  destruct (BN_mod_inverse _ _); [|intros [= <-]; now right].
  destruct (BN_mod_mul _ _ _); [|intros [= <-]; now right].
  destruct (BN_mod_mul _ _ _); [discriminate | intros [= <-]; now right].
Qed.

(** Turns that end in [continue] do not count: the loop goes on with what
    is left of the random source, whatever their number. *)
Lemma SM2_sig_gen_loop_skip (key : EC_KEY) (order e : Z) (draws rng : RNG) :
  Forall (fun d => SM2_sig_gen_step key order e d = Retry) draws ->
  SM2_sig_gen_loop key order e (draws ++ rng)
  = SM2_sig_gen_loop key order e rng.
Proof.
  induction 1 as [|d draws Hd _ IH]; [reflexivity|].
  cbn [app SM2_sig_gen_loop]. now rewrite Hd.
Qed.

(** The loop reports a failure of the random source exactly when, after
    turns that all ended in [continue], a call of [BN_rand_range] fails. *)
Lemma SM2_sig_gen_loop_random (key : EC_KEY) (order e : Z) (rng : RNG) :
  fst (SM2_sig_gen_loop key order e rng)
    = Null SM2_R_RANDOM_NUMBER_GENERATION_FAILED
  <-> exists used draw rest,
        rng = used ++ draw :: rest
        /\ Forall (fun d => SM2_sig_gen_step key order e d = Retry) used
        /\ draw order = None.
Proof.
  split.
  - induction rng as [|d rng IH]; cbn [SM2_sig_gen_loop fst];
      [discriminate|].
    destruct (SM2_sig_gen_step key order e d) as [|sig|reason] eqn:Ed.
    + intros H. destruct (IH H) as (used & draw & rest & -> & Hu & Hd).
      exists (d :: used), draw, rest. now repeat split; [constructor|].
    + discriminate.
    + cbn [fst]. intros [= ->]. exists [], d, rng.
      repeat split; [constructor|]. unfold SM2_sig_gen_step in Ed.
      destruct (d order) as [k|]; [|reflexivity].
      now apply SM2_sig_gen_iter_not_random in Ed.
  - intros (used & draw & rest & -> & Hu & Hd).
    rewrite SM2_sig_gen_loop_skip by assumption.
    cbn [SM2_sig_gen_loop]. unfold SM2_sig_gen_step. now rewrite Hd.
Qed.

(** C5 (as amended).  In a group of order [n], each turn of the signing
    loop takes as nonce the number [k] that [BN_rand_range (k, n)] yields,
    which lies in [[0, n - 1]]; [k = 0] is not set aside: when it is
    drawn, the loop goes on with [0 * G], the point at infinity, and the
    generator returns [NULL] with [ERR_R_EC_LIB].  The generator reports
    [SM2_R_RANDOM_NUMBER_GENERATION_FAILED] exactly when a call of
    [BN_rand_range] fails. *)
Theorem SM2_sig_gen_nonce (key : EC_KEY) (e n : Z) (rng : RNG) :
  let group := EC_KEY_get0_group key in
  EC_GROUP_get_order group = Some n ->
  rand_ok rng ->
  (forall draw k, In draw rng -> draw n = Some k ->
     0 <= k <= n - 1
     /\ SM2_sig_gen_step key n e draw = SM2_sig_gen_iter key n e k)
  /\ (EC_POINT_is_at_infinity group (EC_POINT_mul group 0 None) = true ->
      forall draw rest, draw n = Some 0 ->
        SM2_sig_gen key e (draw :: rest) = (Null ERR_R_EC_LIB, rest))
  /\ (fst (SM2_sig_gen key e rng) = Null SM2_R_RANDOM_NUMBER_GENERATION_FAILED
      <-> exists used draw rest,
            rng = used ++ draw :: rest
            /\ Forall (fun d => SM2_sig_gen_step key n e d = Retry) used
            /\ draw n = None).
Proof.
  intros group Hn Hok. split; [|split].
  - intros draw k Hin Hk. split.
    + unfold rand_ok in Hok. rewrite Forall_forall in Hok.
      specialize (Hok draw Hin n k Hk). lia.
    + unfold SM2_sig_gen_step. now rewrite Hk.
  - intros Hinf draw rest Hdraw. unfold SM2_sig_gen. fold group.
    rewrite Hn. cbn [SM2_sig_gen_loop]. unfold SM2_sig_gen_step.
    rewrite Hdraw. unfold SM2_sig_gen_iter. fold group.
    unfold EC_POINT_get_affine_coordinates_GFp. now rewrite Hinf.
  - unfold SM2_sig_gen. fold group. rewrite Hn.
    apply SM2_sig_gen_loop_random.
Qed.

Lemma rand_ok_answers (ks : list Z) : rand_ok (map answer ks).
Proof.
  unfold rand_ok. rewrite Forall_map. apply Forall_forall.
  intros k _ range k'. unfold answer.
  destruct (Z.leb_spec 0 k), (Z.ltb_spec k range); cbn [andb];
    intros [= <-]. lia.
Qed.

Lemma SM2_sig_gen_nonce_witness :
  SM2_sig_gen toy_key 5 (map answer [0; 7])
  = (Null ERR_R_EC_LIB, map answer [7]).
Proof.
  exact (proj1 (proj2 (SM2_sig_gen_nonce toy_key 5 19 (map answer [0; 7])
                         eq_refl (rand_ok_answers [0; 7])))
           eq_refl (answer 0) (map answer [7]) eq_refl).
Defined.

(** C5, counterexample.  On the toy curve (order 19) the random source
    may answer 0 to [BN_rand_range (k, 19)]; the generator does not draw
    again but uses [k = 0] and returns [NULL]. *)
Lemma SM2_sig_gen_nonce_zero_counterexample :
  rand_ok (map answer [0])
  /\ SM2_sig_gen toy_key 5 (map answer [0]) = (Null ERR_R_EC_LIB, [])
  /\ ~ 1 <= 0 <= 19 - 1.
Proof.
  split; [apply rand_ok_answers|]. split; [reflexivity | lia].
Qed.

(** C7 (as amended).  The signing loop has no cap on its turns: after any
    number of turns that ended in [continue] it is where it started, and
    goes on with the next answers of the random source.  It returns
    [NULL] only for a failure of the random source, of the curve or of the
    big-number arithmetic, never for the number of turns taken. *)
Theorem SM2_sig_gen_retry_unbounded (key : EC_KEY) (e n : Z)
    (draws rng : RNG) :
  EC_GROUP_get_order (EC_KEY_get0_group key) = Some n ->
  Forall (fun d => SM2_sig_gen_step key n e d = Retry) draws ->
  SM2_sig_gen key e (draws ++ rng) = SM2_sig_gen key e rng
  /\ forall reason,
       fst (SM2_sig_gen key e rng) = Null reason ->
       reason = SM2_R_RANDOM_NUMBER_GENERATION_FAILED
       \/ reason = ERR_R_EC_LIB \/ reason = ERR_R_BN_LIB.
Proof.
  intros Hn Hretry. unfold SM2_sig_gen. rewrite Hn. split.
  - now apply SM2_sig_gen_loop_skip.
  - clear draws Hretry. induction rng as [|d rng IH];
      cbn [SM2_sig_gen_loop fst]; [discriminate|].
    destruct (SM2_sig_gen_step key n e d) as [|sig|reason'] eqn:Ed;
      [exact IH | discriminate |].
    cbn [fst]. intros reason [= <-]. unfold SM2_sig_gen_step in Ed.
    destruct (d n); [|injection Ed as <-; now left].
    right. now apply SM2_sig_gen_iter_reasons in Ed.
Qed.

Lemma SM2_sig_gen_retry_unbounded_witness :
  SM2_sig_gen toy_key 14
    (repeat (answer 1) 40 ++ [answer 3])
  = SM2_sig_gen toy_key 14 [answer 3].
Proof.
  refine (proj1 (SM2_sig_gen_retry_unbounded toy_key 14 19
                   (repeat (answer 1) 40) [answer 3]
                   eq_refl _)).
  apply Forall_forall. intros d Hd. apply repeat_spec in Hd. now subst d.
Defined.

(** C7, counterexample.  On the toy curve with [e = 14] the nonce 1 gives
    [r = 0], so every such turn ends in [continue].  Whatever the cap,
    after that many such turns and more the generator has not given up:
    the next nonce, 3, yields a signature. *)
Lemma SM2_sig_gen_no_retry_cap_counterexample :
  ~ exists cap : nat,
      forall turns, (cap <= turns)%nat ->
        exists reason,
          fst (SM2_sig_gen toy_key 14
                 (repeat (answer 1) turns
                    ++ [answer 3]))
          = Null reason.
Proof.
  intros (cap & Hcap). destruct (Hcap cap (le_n cap)) as (reason & Hr).
  unfold SM2_sig_gen in Hr. cbn [toy_key curve_key EC_KEY_get0_group
    curve_group EC_GROUP_get_order toy_curve curve_n Z.eqb] in Hr.
  rewrite SM2_sig_gen_loop_skip in Hr.
  - vm_compute in Hr. discriminate.
  - apply Forall_forall. intros d Hd. apply repeat_spec in Hd. now subst d.
Qed.

(** A signature that leaves the loop body has [r] in [[1, n - 1]] with
    [r + k <> n], and [s] in [[0, n - 1]]. *)
Lemma SM2_sig_gen_iter_signed (key : EC_KEY) (n e k : Z) (sig : ECDSA_SIG) :
  0 < n ->
  SM2_sig_gen_iter key n e k = Signed sig ->
  1 <= sig_r sig <= n - 1 /\ sig_r sig + k <> n
  /\ 0 <= sig_s sig <= n - 1.
Proof.
  intros Hn. unfold SM2_sig_gen_iter.
  destruct (EC_POINT_get_affine_coordinates_GFp _ _) as [x1|];
    [|discriminate].
  unfold BN_mod_add, BN_mod_mul. rewrite !BN_nnmod_pos by assumption.
  unfold BN_is_zero. destruct (Z.eqb_spec ((e + x1) mod n) 0);
    [discriminate|].
  rewrite BN_cmp_eq. destruct (Z.eqb_spec ((e + x1) mod n + k) n);
    [discriminate|].
  destruct (BN_mod_inverse _ _) as [inv|]; [|discriminate].
  rewrite BN_nnmod_pos by assumption.
  intros [= <-]. cbn [sig_r sig_s].
  pose proof (Z.mod_pos_bound (e + x1) n Hn).
  pose proof (Z.mod_pos_bound
                (inv * (k - EC_KEY_get0_private_key key * ((e + x1) mod n) mod n))
                n Hn).
  lia.
Qed.

(** C6, failing input.  Toy curve (order 19), private key 2, [e = 5] and
    the nonce [k = 1]: [x1 = 5], [r = 10], [r + k = 11], and
    [s = 3^-1 * (1 - 2 * 10) mod 19 = 0].  The generator returns
    [(10, 0)]: [s] is not in [[1, n - 1]]. *)
Theorem SM2_sig_gen_zero_s :
  SM2_sig_gen toy_key 5 [answer 1]
  = (Sig {| sig_r := 10; sig_s := 0 |}, []).
Proof. reflexivity. Qed.

(** C2, failing input.  Toy curve, key 2, the two-byte checksum as
    digest, identity "1234" and message "msd": the message hash is
    [e = 43116 = 5 (mod 19)], and with the nonce [k = 1] signing returns
    [(10, 0)], which verification of the same message rejects. *)
Theorem SM2_do_sign_verify_zero_s :
  SM2_compute_msg_hash toy_userid_digest toy_md toy_key
    [49; 50; 51; 52] [109; 115; 100] = inl 43116
  /\ SM2_do_sign toy_userid_digest toy_key toy_md
       [49; 50; 51; 52] [109; 115; 100] [answer 1]
     = (Sig {| sig_r := 10; sig_s := 0 |}, [])
  /\ SM2_do_verify toy_userid_digest toy_key toy_md
       {| sig_r := 10; sig_s := 0 |} [49; 50; 51; 52] [109; 115; 100]
     = 0.
Proof. repeat split. Qed.

(** *** SM2 round trip *)

Lemma egcd_invariant (n a : Z) (fuel : nat) :
  forall r0 r1 s0 s1 g s,
    eqm n r0 (s0 * a) -> eqm n r1 (s1 * a) ->
    egcd fuel r0 r1 s0 s1 = (g, s) -> eqm n g (s * a).
Proof.
  induction fuel as [|fuel IH]; intros r0 r1 s0 s1 g s H0 H1;
    cbn [egcd]; [now intros [= <- <-]|].
  destruct (Z.eqb_spec r1 0) as [->|Hr1]; [now intros [= <- <-]|].
  apply IH; [assumption|].
  rewrite Z.mod_eq by assumption.
  replace ((s0 - r0 / r1 * s1) * a) with (s0 * a - s1 * a * (r0 / r1))
    by ring.
  apply Zminus_eqm; [exact H0|].
  apply Zmult_eqm; [exact H1 | apply eqm_refl].
Qed.

Lemma BN_mod_inverse_sound (a n x : Z) :
  BN_mod_inverse a n = Some x -> 0 <= x < n /\ eqm n (x * a) 1.
Proof.
  unfold BN_mod_inverse. destruct (Z.leb_spec n 0) as [|Hn]; [discriminate|].
  destruct (egcd _ n (a mod n) 0 1) as [g s] eqn:E.
  destruct (Z.eqb_spec g 1) as [->|]; [|discriminate].
  intros [= <-]. split; [apply Z.mod_pos_bound; lia|].
  apply egcd_invariant with (n := n) (a := a) in E.
  - apply eqm_trans with (s * a); [|apply eqm_sym; exact E].
    apply Zmult_eqm; [apply Zmod_eqm | apply eqm_refl].
  - unfold eqm. now rewrite Z.mod_same by lia.
  - rewrite Z.mul_1_l. apply Zmod_eqm.
Qed.

#[local] Existing Instances eqm_setoid Zplus_eqm Zminus_eqm Zmult_eqm.

Lemma eqm_of_eq (n a b : Z) : a = b -> eqm n a b.
Proof. intros ->. apply eqm_refl. Qed.

Section SM2_roundtrip.

Variable key : EC_KEY.
Variables n e : Z.

Let group := EC_KEY_get0_group key.
Let dA := EC_KEY_get0_private_key key.

Hypothesis laws : EC_GROUP_laws group n.
Hypothesis order_n : EC_GROUP_get_order group = Some n.
Hypothesis public_key :
  EC_KEY_get0_public_key key = EC_POINT_mul group dA None.

(** A signature that leaves the loop body with [s <> 0] verifies. *)
Lemma SM2_sig_gen_iter_verifies (k : Z) (sig : ECDSA_SIG) :
  0 <= k < n ->
  SM2_sig_gen_iter key n e k = Signed sig ->
  sig_s sig <> 0 ->
  SM2_sig_verify key sig e = (1, None).
Proof.
  intros Hk Hsig Hs. assert (Hn : 0 < n) by lia.
  unfold SM2_sig_gen_iter in Hsig. fold group dA in Hsig.
  destruct (EC_POINT_get_affine_coordinates_GFp group
              (EC_POINT_mul group k None)) as [x1|] eqn:Hx1; [|discriminate].
  unfold BN_mod_add, BN_mod_mul in Hsig.
  rewrite !BN_nnmod_pos in Hsig by assumption.
  unfold BN_is_zero, BN_value_one in Hsig.
  set (r := (e + x1) mod n) in *.
  destruct (Z.eqb_spec r 0) as [|Hr0]; [discriminate|].
  rewrite BN_cmp_eq in Hsig.
  destruct (Z.eqb_spec (r + k) n) as [|Hrk]; [discriminate|].
  destruct (BN_mod_inverse (dA + 1) n) as [inv|] eqn:Hinv; [|discriminate].
  rewrite BN_nnmod_pos in Hsig by assumption.
  injection Hsig as <-.
  cbn [sig_s] in Hs.
  set (s := (inv * (k - dA * r mod n)) mod n) in *.
  destruct (BN_mod_inverse_sound _ _ _ Hinv) as [_ Einv].
  assert (Hr : 0 <= r < n) by (apply Z.mod_pos_bound; assumption).
  assert (Hsr : 0 <= s < n) by (apply Z.mod_pos_bound; assumption).
  (* [(dA + 1) * s = k - dA * r] modulo [n] *)
  assert (F2 : eqm n ((dA + 1) * s) (k - dA * r)).
  { unfold s. rewrite (Zmod_eqm n (inv * _)), (Zmod_eqm n (dA * r)).
    transitivity (inv * (dA + 1) * (k - dA * r)); [apply eqm_of_eq; ring|].
    rewrite Einv. apply eqm_of_eq. ring. }
  (* [t <> 0] *)
  assert (Ft : (r + s) mod n <> 0).
  { intros Ht. assert (E0 : eqm n (r + s) 0)
      by (unfold eqm; now rewrite Ht, Z.mod_0_l by lia).
    assert (E1 : eqm n (r + k) 0).
    { transitivity ((dA + 1) * (r + s) - ((dA + 1) * s - (k - dA * r)));
        [apply eqm_of_eq; ring|].
      rewrite E0, F2. apply eqm_of_eq. ring. }
    unfold eqm in E1. rewrite Z.mod_0_l in E1 by lia.
    apply Z.mod_divide in E1; [|lia]. destruct E1 as [q Eq].
    assert (Hq : q <= 0 \/ q = 1 \/ 2 <= q) by lia.
    destruct Hq as [?|[->|?]]; [nia | lia | nia]. }
  (* [s + t * dA = k] modulo [n] *)
  assert (Fk : (s + (r + s) mod n * dA) mod n = k mod n).
  { change (eqm n (s + (r + s) mod n * dA) k).
    rewrite (Zmod_eqm n (r + s)).
    transitivity ((dA + 1) * s + r * dA); [apply eqm_of_eq; ring|].
    rewrite F2. apply eqm_of_eq. ring. }
  unfold SM2_sig_verify. fold group. rewrite order_n. cbn [sig_r sig_s].
  rewrite !BN_cmp_lt, !BN_cmp_le. unfold BN_value_one.
  rewrite (proj2 (Z.ltb_ge r 1)), (proj2 (Z.ltb_ge s 1)) by lia.
  rewrite (proj2 (Z.leb_gt n r)), (proj2 (Z.leb_gt n s)) by lia.
  cbn [orb]. unfold BN_mod_add. rewrite BN_nnmod_pos by assumption.
  unfold BN_is_zero. rewrite (proj2 (Z.eqb_neq _ _) Ft).
  rewrite public_key, (EC_POINT_mul_add _ _ laws).
  rewrite (EC_POINT_mul_mod _ _ laws _ k Fk), Hx1.
  rewrite BN_nnmod_pos by assumption. fold r.
  now rewrite BN_cmp_eq, Z.eqb_refl.
Qed.

End SM2_roundtrip.

(** *** The toy curve is a group of order 19 *)

Lemma ec_eqb_eq (P Q : ec_point) : ec_eqb P Q = true -> P = Q.
Proof.
  destruct P as [|x1 y1], Q as [|x2 y2]; cbn [ec_eqb];
    try discriminate; [reflexivity|].
  intros H. apply andb_prop in H. destruct H as [Hx Hy].
  apply Z.eqb_eq in Hx, Hy. now subst.
Qed.

Lemma toy_scalars_In (i : Z) : 0 <= i < 19 -> In i toy_scalars.
Proof.
  intros Hi. unfold toy_scalars. rewrite <- (Z2Nat.id i) by lia.
  apply in_map, in_seq. lia.
Qed.

Lemma toy_point_add (i j : Z) :
  0 <= i < 19 -> 0 <= j < 19 ->
  ec_add toy_curve (toy_point i) (toy_point j) = toy_point ((i + j) mod 19).
Proof.
  intros Hi Hj.
  assert (T : forallb (fun i => forallb (fun j =>
                ec_eqb (ec_add toy_curve (toy_point i) (toy_point j))
                       (toy_point ((i + j) mod 19))) toy_scalars)
                toy_scalars = true) by (vm_compute; reflexivity).
  rewrite forallb_forall in T. specialize (T i (toy_scalars_In i Hi)).
  rewrite forallb_forall in T. specialize (T j (toy_scalars_In j Hj)).
  now apply ec_eqb_eq.
Qed.

Lemma toy_point_neg (i : Z) :
  0 <= i < 19 -> ec_neg toy_curve (toy_point i) = toy_point ((- i) mod 19).
Proof.
  intros Hi.
  assert (T : forallb (fun i =>
                ec_eqb (ec_neg toy_curve (toy_point i))
                       (toy_point ((- i) mod 19))) toy_scalars = true)
    by (vm_compute; reflexivity).
  rewrite forallb_forall in T. specialize (T i (toy_scalars_In i Hi)).
  now apply ec_eqb_eq.
Qed.

(** Equations between remainders modulo 19, up to ring identities. *)
Ltac mod19 :=
  match goal with
  | |- ?a mod 19 = ?b mod 19 => change (eqm 19 a b)
  end;
  repeat rewrite (Zmod_eqm 19); apply eqm_of_eq; ring.

Lemma toy_point_mul_pos (k : positive) (i : Z) :
  0 <= i < 19 ->
  ec_mul_pos toy_curve k (toy_point i) = toy_point ((Zpos k * i) mod 19).
Proof.
  intros Hi. induction k as [k IH|k IH|]; cbn [ec_mul_pos].
  - rewrite IH.
    pose proof (Z.mod_pos_bound (Z.pos k * i) 19 ltac:(lia)).
    rewrite toy_point_add by lia.
    pose proof (Z.mod_pos_bound (Z.pos k * i mod 19 + Z.pos k * i mod 19) 19
                  ltac:(lia)).
    rewrite toy_point_add by lia. f_equal.
    rewrite (Pos2Z.inj_xI k). mod19.
  - rewrite IH.
    pose proof (Z.mod_pos_bound (Z.pos k * i) 19 ltac:(lia)).
    rewrite toy_point_add by lia. f_equal.
    rewrite (Pos2Z.inj_xO k). mod19.
  - f_equal. rewrite Z.mul_1_l. symmetry. apply Z.mod_small. lia.
Qed.

Lemma toy_point_mul (t i : Z) :
  0 <= i < 19 ->
  ec_mul toy_curve t (toy_point i) = toy_point ((t * i) mod 19).
Proof.
  intros Hi. destruct t as [|k|k]; cbn [ec_mul].
  - reflexivity.
  - now apply toy_point_mul_pos.
  - rewrite toy_point_mul_pos by assumption.
    pose proof (Z.mod_pos_bound (Z.pos k * i) 19 ltac:(lia)).
    rewrite toy_point_neg by lia. f_equal.
    rewrite <- Pos2Z.opp_pos.
    replace (- (Z.pos k * i mod 19)) with (0 - Z.pos k * i mod 19) by ring.
    mod19.
Qed.

Lemma toy_mul_G (a : Z) :
  ec_mul toy_curve a (curve_G toy_curve) = toy_point (a mod 19).
Proof.
  change (curve_G toy_curve) with (toy_point 1).
  rewrite toy_point_mul by lia. now rewrite Z.mul_1_r.
Qed.

Lemma toy_mul_base (a : Z) :
  EC_POINT_mul (curve_group toy_curve) a None = toy_point (a mod 19).
Proof.
  cbn [curve_group EC_POINT_mul]. rewrite toy_mul_G.
  pose proof (Z.mod_pos_bound a 19 ltac:(lia)).
  change ec_inf with (toy_point 0). rewrite toy_point_add by lia.
  now rewrite Z.add_0_r, Z.mod_mod by lia.
Qed.

Lemma toy_group_laws : EC_GROUP_laws (curve_group toy_curve) 19.
Proof.
  split.
  - intros a b Hab. now rewrite !toy_mul_base, Hab.
  - intros s t d. rewrite !toy_mul_base.
    cbn [curve_group EC_POINT_mul]. rewrite toy_mul_G.
    pose proof (Z.mod_pos_bound d 19 ltac:(lia)).
    pose proof (Z.mod_pos_bound s 19 ltac:(lia)).
    rewrite toy_point_mul by lia.
    pose proof (Z.mod_pos_bound (t * (d mod 19)) 19 ltac:(lia)).
    rewrite toy_point_add by lia. f_equal. mod19.
Qed.

(** *** Signing then verifying a message *)

(** A signature returned by the loop left the loop body on a nonce drawn
    from [[0, n)]. *)
Lemma SM2_sig_gen_loop_signed (key : EC_KEY) (n e : Z) (rng rng' : RNG)
    (sig : ECDSA_SIG) :
  rand_ok rng ->
  SM2_sig_gen_loop key n e rng = (Sig sig, rng') ->
  exists k, 0 <= k < n /\ SM2_sig_gen_iter key n e k = Signed sig.
Proof.
  induction 1 as [|d rng Hd _ IH]; cbn [SM2_sig_gen_loop]; [discriminate|].
  destruct (SM2_sig_gen_step key n e d) as [|sig'|reason] eqn:Ed;
    [exact IH | | discriminate].
  intros [= -> _]. unfold SM2_sig_gen_step in Ed.
  destruct (d n) as [k|] eqn:Ek; [|discriminate].
  exists k. split; [now apply (Hd n k) | exact Ed].
Qed.

Section SM2_message_roundtrip.

Variable SM2_compute_userid_digest :
  EVP_MD -> list Z -> EC_KEY -> option (list Z).
Variable key : EC_KEY.
Variable n : Z.

Let group := EC_KEY_get0_group key.

Hypothesis laws : EC_GROUP_laws group n.
Hypothesis order_n : EC_GROUP_get_order group = Some n.
Hypothesis public_key :
  EC_KEY_get0_public_key key
  = EC_POINT_mul group (EC_KEY_get0_private_key key) None.

(** In a group of order [n], with the public key [dA * G]: a signature
    [(r, s)] returned by [SM2_do_sign] verifies under [SM2_do_verify] for
    the same digest, identity and message, provided [s] is not zero. *)
Lemma SM2_do_sign_verify_nonzero_s (digest : EVP_MD) (user_id msg : list Z)
    (rng rng' : RNG) (sig : ECDSA_SIG) :
  rand_ok rng ->
  SM2_do_sign SM2_compute_userid_digest key digest user_id msg rng
  = (Sig sig, rng') ->
  sig_s sig <> 0 ->
  SM2_do_verify SM2_compute_userid_digest key digest sig user_id msg = 1.
Proof.
  intros Hrng Hsign Hs. unfold SM2_do_sign, SM2_do_verify in *.
  destruct (SM2_compute_msg_hash _ digest key user_id msg) as [e|];
    [|discriminate].
  unfold SM2_sig_gen in Hsign. fold group in Hsign. rewrite order_n in Hsign.
  destruct (SM2_sig_gen_loop_signed _ _ _ _ _ _ Hrng Hsign) as (k & Hk & Hit).
  now rewrite (SM2_sig_gen_iter_verifies key n e laws order_n public_key
                 k sig Hk Hit Hs).
Qed.

End SM2_message_roundtrip.

(** On the toy curve the same message signed with the nonce 2 gives
    [(11, 6)], which verifies. *)
Lemma toy_sign_verify :
  SM2_do_sign toy_userid_digest toy_key toy_md
    [49; 50; 51; 52] [109; 115; 100] [answer 2]
  = (Sig {| sig_r := 11; sig_s := 6 |}, [])
  /\ SM2_do_verify toy_userid_digest toy_key toy_md
       {| sig_r := 11; sig_s := 6 |} [49; 50; 51; 52] [109; 115; 100]
     = 1.
Proof.
  split; [reflexivity|].
  apply (SM2_do_sign_verify_nonzero_s toy_userid_digest toy_key 19
           toy_group_laws eq_refl eq_refl toy_md
           [49; 50; 51; 52] [109; 115; 100]
           (map answer [2]) []).
  - apply rand_ok_answers.
  - reflexivity.
  - discriminate.
Qed.

(** *** The zero [s] on sm2p256v1 *)

Lemma sm2_test_key_on_curve :
  on_curve sm2p256v1 (curve_G sm2p256v1) = true
  /\ on_curve sm2p256v1 (EC_KEY_get0_public_key sm2_test_key) = true.
Proof. split; vm_compute; reflexivity. Qed.

(** The same happens on sm2p256v1 with the key of the test vector: for
    the digest [e] below (handed to [SM2_sign] as 32 bytes) and the nonce
    [k = 1], [r = dA^-1 mod n] and the generator returns [(r, 0)]. *)
Lemma SM2_sig_gen_zero_s_sm2p256v1 :
  SM2_sig_gen sm2_test_key
    0xD9F66098B173010A04163178ADDCEE1D6500D97048BC8935D0AC28A0D73CBA14
    [answer 1]
  = (Sig {| sig_r :=
              0x0CBB0EC5D08C822363AF35BF1816B7B282E005C5195C8FEBEE4A7A20D0B3EDB8;
            sig_s := 0 |}, []).
Proof. vm_compute. reflexivity. Qed.

(* ================================================================== *)
(** ** Part III.  Further properties of the code                       *)
(* ================================================================== *)

(** *** MGF1 beyond the claims *)

Lemma mgf1_blocks_app (H : list Z -> list Z) (seed : list Z) (n d : nat) :
  exists rest, mgf1_blocks H seed (n + d) = mgf1_blocks H seed n ++ rest.
Proof.
  induction d as [|d [rest IH]].
  - exists []. now rewrite Nat.add_0_r, app_nil_r.
  - exists (rest ++ H (seed ++ I2OSP (Z.of_nat (n + d)) 4)).
    now rewrite Nat.add_succ_r, mgf1_blocks_S, IH, app_assoc.
Qed.

Lemma mgf1_spec_prefix (H : list Z -> list Z) (hLen : Z) (seed : list Z)
    (len1 len2 : Z) :
  0 < hLen -> (forall x, Z.of_nat (length (H x)) = hLen) ->
  0 <= len1 <= len2 ->
  mgf1_spec H hLen seed len1
  = firstn (Z.to_nat len1) (mgf1_spec H hLen seed len2).
Proof.
  intros Hh HH Hl. unfold mgf1_spec.
  set (n1 := Z.to_nat ((len1 + hLen - 1) / hLen)).
  set (n2 := Z.to_nat ((len2 + hLen - 1) / hLen)).
  assert (Hn : (n1 <= n2)%nat).
  { unfold n1, n2. apply Z2Nat.inj_le.
    - apply Z.div_pos; lia.
    - apply Z.div_pos; lia.
    - apply Z.div_le_mono; lia. }
  destruct (mgf1_blocks_app H seed n1 (n2 - n1)) as [rest E].
  replace (n1 + (n2 - n1))%nat with n2 in E by lia.
  rewrite firstn_firstn, Nat.min_l by lia.
  rewrite E, firstn_app.
  assert (L1 : len1 <= Z.of_nat (length (mgf1_blocks H seed n1))).
  { rewrite (mgf1_blocks_length H hLen seed n1 HH). unfold n1.
    rewrite Z2Nat.id by (apply Z.div_pos; lia).
    pose proof (Z.div_mod (len1 + hLen - 1) hLen ltac:(lia)).
    pose proof (Z.mod_pos_bound (len1 + hLen - 1) hLen ltac:(lia)). nia. }
  replace (Z.to_nat len1 - length (mgf1_blocks H seed n1))%nat with 0%nat
    by lia.
  cbn [firstn]. now rewrite app_nil_r.
Qed.

(** X1.  MGF1 is a stream: for a digest that behaves, the mask of [len1]
    bytes is the beginning of the mask of any greater length [len2] for
    the same seed. *)
Theorem PKCS1_MGF1_prefix (dgst : EVP_MD) (seed : list Z) (len1 len2 : Z)
    (fuel1 fuel2 : nat) :
  md_ok dgst -> 0 <= len1 <= len2 ->
  (Z.to_nat len1 <= fuel1)%nat -> (Z.to_nat len2 <= fuel2)%nat ->
  exists mask1 mask2,
    PKCS1_MGF1 fuel1 len1 seed dgst = Some (0, mask1)
    /\ PKCS1_MGF1 fuel2 len2 seed dgst = Some (0, mask2)
    /\ mask1 = firstn (Z.to_nat len1) mask2.
Proof.
  intros Hok Hl Hf1 Hf2.
  destruct (PKCS1_MGF1_run dgst seed len1 fuel1 Hok) as [R1 _]; try lia.
  destruct (PKCS1_MGF1_run dgst seed len2 fuel2 Hok) as [R2 _]; try lia.
  do 2 eexists. split; [exact R1|]. split; [exact R2|].
  apply mgf1_spec_prefix; [apply Hok | | assumption].
  intros x. now apply md_ok_length.
Qed.

Lemma PKCS1_MGF1_prefix_witness :
  exists mask1 mask2,
    PKCS1_MGF1 3 3 [1; 2; 3] toy_md = Some (0, mask1)
    /\ PKCS1_MGF1 5 5 [1; 2; 3] toy_md = Some (0, mask2)
    /\ mask1 = firstn (Z.to_nat 3) mask2.
Proof.
  exact (PKCS1_MGF1_prefix toy_md [1; 2; 3] 3 5 3 5 toy_md_ok
           ltac:(lia) ltac:(cbn; lia) ltac:(cbn; lia)).
Defined.

Lemma PKCS1_MGF1_loop_returns (dgst : EVP_MD) (seed : list Z) (len : Z)
    (fuel : nat) :
  md_wf dgst ->
  forall i outlen mask rv mask',
    Z.of_nat (length mask) = outlen -> outlen <= len ->
    PKCS1_MGF1_loop fuel dgst seed len i outlen mask = Some (rv, mask') ->
    (rv = 0 /\ Z.of_nat (length mask') = len)
    \/ (rv = -1 /\ Z.of_nat (length mask') < len).
Proof.
  intros Hwf. induction fuel as [|fuel IH];
    intros i outlen mask rv mask' Lm Hle;
    cbn [PKCS1_MGF1_loop]; destruct (Z.ltb_spec outlen len) as [Hlt|Hge];
    try discriminate; try (intros [= <- <-]; left; split; lia).
  unfold EVP_DigestFinal_ex.
  destruct (EVP_Digest dgst _) as [d|] eqn:Ed;
    [|intros [= <- <-]; right; split; lia].
  pose proof (Hwf _ _ Ed) as Ld.
  destruct (Z.leb_spec (outlen + EVP_MD_size dgst) len) as [Hfull|Hpart].
  - apply IH; [rewrite length_app; lia | lia].
  - apply IH; [|lia]. rewrite length_app, length_firstn. lia.
Qed.

(** X2.  Whatever the digest does (it may fail at any block), a call of
    [PKCS1_MGF1] that returns has returned 0 or -1; with 0 it has written
    exactly [len] bytes, with -1 at most [len]. *)
Theorem PKCS1_MGF1_returns (dgst : EVP_MD) (seed : list Z) (len : Z)
    (fuel : nat) (rv : Z) (mask : list Z) :
  md_wf dgst -> 0 <= len ->
  PKCS1_MGF1 fuel len seed dgst = Some (rv, mask) ->
  (rv = 0 /\ Z.of_nat (length mask) = len)
  \/ (rv = -1 /\ Z.of_nat (length mask) <= len).
Proof.
  intros Hwf Hlen. unfold PKCS1_MGF1.
  destruct (EVP_MD_size dgst <? 0);
    [intros [= <- <-]; right; split; [reflexivity | cbn; lia]|].
  intros E.
  destruct (PKCS1_MGF1_loop_returns dgst seed len fuel Hwf 0 0 [] rv mask
              eq_refl Hlen E) as [?|[? ?]]; [now left | right; split; lia].
Qed.

(** A digest that fails after its first block. *)
Lemma PKCS1_MGF1_returns_witness :
  let dgst := {| EVP_MD_size := 2;
                 EVP_Digest := fun x =>
                   if nth 4 x 0 =? 0 then Some (toy_digest x) else None |} in
  (-1 = 0 /\ Z.of_nat (length [91; 1]) = 5)
  \/ (-1 = -1 /\ Z.of_nat (length [91; 1]) <= 5).
Proof.
  intros dgst.
  refine (PKCS1_MGF1_returns dgst [1] 5 5 (-1) [91; 1] _ ltac:(lia) eq_refl).
  intros x d. cbn [dgst EVP_Digest EVP_MD_size].
  destruct (nth 4 x 0 =? 0); [intros [= <-]; reflexivity | discriminate].
Defined.

(** X3.  With a digest of size zero that does not fail, a call of
    [PKCS1_MGF1] for a positive length never returns: the loop makes no
    progress, whatever the number of iterations granted. *)
Theorem PKCS1_MGF1_zero_size_loops (dgst : EVP_MD) (seed : list Z)
    (len : Z) (fuel : nat) :
  EVP_MD_size dgst = 0 ->
  (forall x, EVP_Digest dgst x <> None) ->
  0 < len ->
  PKCS1_MGF1 fuel len seed dgst = None.
Proof.
  intros Hsize Hd Hlen. unfold PKCS1_MGF1. rewrite Hsize. cbn [Z.ltb Z.compare].
  generalize 0 at 1. generalize (@nil Z).
  induction fuel as [|fuel IH]; intros mask i; cbn [PKCS1_MGF1_loop];
    rewrite (proj2 (Z.ltb_lt 0 len) Hlen); [reflexivity|].
  unfold EVP_DigestFinal_ex.
  destruct (EVP_Digest dgst _) as [d|] eqn:Ed; [|now apply Hd in Ed].
  rewrite Hsize, Z.add_0_l, (proj2 (Z.leb_le 0 len)) by lia.
  apply IH.
Qed.

Lemma PKCS1_MGF1_zero_size_loops_witness :
  PKCS1_MGF1 1000 1 [1; 2; 3] empty_md = None.
Proof.
  apply (PKCS1_MGF1_zero_size_loops empty_md [1; 2; 3] 1 1000 eq_refl);
    [discriminate | lia].
Defined.

Lemma I2OSP_periodic (n : nat) (x k : Z) :
  I2OSP (x + k * 256 ^ Z.of_nat n) n = I2OSP x n.
Proof.
  revert x k. induction n as [|n IH]; intros x k; [reflexivity|].
  cbn [I2OSP]. rewrite Nat2Z.inj_succ, Z.pow_succ_r by lia.
  replace (x + k * (256 * 256 ^ Z.of_nat n))
    with (x + k * 256 ^ Z.of_nat n * 256) by ring.
  now rewrite Z.div_add, Z.mod_add, IH by lia.
Qed.

(** X4.  Only the low 32 bits of the block counter reach the digest: the
    counter bytes of block [i + 2^32] are those of block [i], so a mask of
    more than [2^32] blocks repeats itself instead of being refused. *)
Theorem mgf1_cnt_wraps (i : Z) : mgf1_cnt (i + 2 ^ 32) = mgf1_cnt i.
Proof.
  rewrite !mgf1_cnt_I2OSP.
  exact (I2OSP_periodic 4 i 1).
Qed.

(** *** OAEP decoding beyond the claims *)

Section Decode_valid.

Variable sha1 : EVP_MD.
Variable malloc : Z -> bool.
Variables md mgf1md : option EVP_MD.

Let hash := match md with Some m => m | None => sha1 end.
Let mgf_hash := match mgf1md with Some m => m | None => hash end.
Let hLen := EVP_MD_size hash.

Hypothesis hash_ok : md_ok hash.
Hypothesis mgf_ok : md_ok mgf_hash.

(** A block whose data block reads [lHash || 0...0 || 01 || m] decodes to
    [m], room in the output buffer permitting. *)
Lemma decode_valid_block (fuel : nat) (to from : list Z) (num : Z)
    (param m : list Z) (ps : nat) :
  malloc (num - 1 - hLen + (num - 1)) = true ->
  (Z.to_nat num <= fuel)%nat ->
  2 * hLen + 2 <= num ->
  Z.of_nat (length from) <= num - 1 ->
  oaep_DB hash mgf_hash (oaep_pad from num) num
  = digest_of hash param ++ repeat 0 ps ++ 1 :: m ->
  RSA_padding_check_PKCS1_OAEP_mgf1 sha1 malloc fuel to from num param
    md mgf1md
  = Some (if Z.of_nat (length to) <? Z.of_nat (length m)
          then {| ret := -1; reason := Some RSA_R_DATA_TOO_LARGE;
                  to_after := to |}
          else {| ret := Z.of_nat (length m); reason := None;
                  to_after := m ++ skipn (length m) to |}).
Proof.
  intros Hmalloc Hfuel Hnum Hflen EDB.
  assert (Hpos : 0 < hLen) by apply hash_ok.
  pose proof (oaep_pad_length from num ltac:(lia)) as Lpad.
  pose proof (oaep_DB_length hash mgf_hash _ num hash_ok mgf_ok Lpad Hnum)
    as LDB.
  rewrite decode_unmask; try assumption.
  fold hash. fold mgf_hash. fold hLen. rewrite EDB in *.
  set (lHash := digest_of hash param) in *.
  assert (LlH : Z.of_nat (length lHash) = hLen) by now apply md_ok_length.
  set (DB := lHash ++ repeat 0 ps ++ 1 :: m) in *.
  assert (Lps : Z.of_nat ps = num - 1 - hLen - hLen - 1 - Z.of_nat (length m)).
  { unfold DB in LDB. rewrite !length_app, repeat_length in LDB.
    cbn [length] in LDB. fold hLen in LDB. lia. }
  assert (Eskip : skipn (Z.to_nat hLen) DB = repeat 0 ps ++ 1 :: m).
  { unfold DB. rewrite skipn_app, skipn_all2 by lia.
    replace (Z.to_nat hLen - length lHash)%nat with 0%nat by lia.
    reflexivity. }
  assert (Ecmp : timingsafe_memcmp DB lHash (Z.to_nat hLen) = 0).
  { apply timingsafe_memcmp_eq; [unfold DB; rewrite length_app; lia | lia |].
    unfold DB. rewrite firstn_app, !firstn_all2 by lia.
    replace (Z.to_nat hLen - length lHash)%nat with 0%nat by lia.
    apply app_nil_r. }
  rewrite Ecmp. cbn [Z.eqb negb orb].
  rewrite (proj2 (Z.ltb_ge _ _)) by lia.
  cbv zeta.
  rewrite scan_zeros_first_nonzero;
    [| lia | rewrite Eskip, length_app, repeat_length; cbn [length]; lia].
  rewrite Eskip, first_nonzero_zeros by discriminate.
  rewrite (proj2 (Z.eqb_neq _ _)) by lia.
  assert (Enth : nth (Z.to_nat (hLen + Z.of_nat ps)) DB 0 = 1).
  { unfold DB. rewrite app_nth2 by lia. rewrite app_nth2
      by (rewrite repeat_length; lia).
    rewrite repeat_length.
    replace (Z.to_nat (hLen + Z.of_nat ps) - length lHash - ps)%nat
      with 0%nat by lia.
    reflexivity. }
  rewrite Enth. cbn [Z.eqb negb orb].
  replace (num - 1 - hLen - (hLen + Z.of_nat ps + 1))
    with (Z.of_nat (length m)) by lia.
  destruct (Z.ltb_spec (Z.of_nat (length to)) (Z.of_nat (length m)));
    [reflexivity|].
  do 2 f_equal.
  assert (Eload : load DB (hLen + Z.of_nat ps + 1) (Z.of_nat (length m)) = m).
  { unfold load, DB.
    rewrite skipn_app, skipn_all2 by lia. cbn [app].
    rewrite skipn_app, skipn_all2 by (rewrite repeat_length; lia).
    rewrite repeat_length. cbn [app].
    replace (Z.to_nat (hLen + Z.of_nat ps + 1) - length lHash - ps)%nat
      with 1%nat by lia.
    cbn [skipn app]. apply firstn_all2. lia. }
  rewrite Eload. unfold store. cbn [Z.to_nat firstn app Nat.add].
  reflexivity.
Qed.

(** Encoding, then decoding the block without its leading zero byte into
    any buffer. *)
Lemma decode_encoded_block (fuel : nat) (entropy to msg label out : list Z) :
  let emLen := Z.of_nat (length to) in
  let mLen := Z.of_nat (length msg) in
  malloc (emLen - 1 - hLen) = true ->
  malloc (emLen - 1 - hLen + (emLen - 1)) = true ->
  hLen <= Z.of_nat (length entropy) ->
  (Z.to_nat emLen <= fuel)%nat ->
  mLen <= emLen - 2 * hLen - 2 ->
  exists em,
    RSA_padding_add_PKCS1_OAEP_mgf1 sha1 malloc fuel entropy to msg label
      md mgf1md
    = Some {| ret := 1; reason := None; to_after := em |}
    /\ Z.of_nat (length em) = emLen
    /\ oaep_DB hash mgf_hash (skipn 1 em) emLen
       = digest_of hash label
           ++ repeat 0 (Z.to_nat (emLen - mLen - 2 * hLen - 2)) ++ 1 :: msg
    /\ RSA_padding_check_PKCS1_OAEP_mgf1 sha1 malloc fuel out (skipn 1 em)
         emLen label md mgf1md
       = Some (if Z.of_nat (length out) <? mLen
               then {| ret := -1; reason := Some RSA_R_DATA_TOO_LARGE;
                       to_after := out |}
               else {| ret := mLen; reason := None;
                       to_after := msg ++ skipn (length msg) out |}).
Proof.
  intros emLen mLen Hmal1 Hmal2 Hent Hfuel Hfit.
  assert (Hpos : 0 < hLen) by apply hash_ok.
  set (seed := firstn (Z.to_nat hLen) entropy).
  assert (Lseed : Z.of_nat (length seed) = hLen)
    by (unfold seed; rewrite length_firstn; lia).
  set (em := oaep_encode_spec hash mgf_hash msg label seed emLen).
  assert (Lem : Z.of_nat (length em) = emLen)
    by (apply oaep_encode_spec_length; assumption).
  pose proof (oaep_DB_encode hash mgf_hash msg label seed emLen hash_ok
                mgf_ok Lseed Hfit) as EDB.
  fold em in EDB. fold hLen in EDB. fold mLen in EDB.
  exists em. split; [now apply encode_success|].
  split; [exact Lem|]. split; [exact EDB|].
  assert (Epad : oaep_pad (skipn 1 em) emLen = skipn 1 em).
  { unfold oaep_pad. rewrite length_skipn.
    replace (emLen - 1 - Z.of_nat (length em - 1)) with 0 by lia.
    reflexivity. }
  apply decode_valid_block
    with (ps := Z.to_nat (emLen - mLen - 2 * hLen - 2)); try assumption;
    try lia.
  - rewrite length_skipn. lia.
  - now rewrite Epad.
Qed.

End Decode_valid.

(** X5.  With digests that behave: decoding a freshly encoded block into a
    buffer shorter than the message fails with [RSA_R_DATA_TOO_LARGE] and
    writes nothing, however little is missing. *)
Theorem OAEP_decode_short_buffer (sha1 : EVP_MD) (malloc : Z -> bool)
    (fuel : nat) (entropy to msg label out : list Z)
    (md mgf1md : option EVP_MD) :
  let hash := match md with Some m => m | None => sha1 end in
  let mgf_hash := match mgf1md with Some m => m | None => hash end in
  let hLen := EVP_MD_size hash in
  let emLen := Z.of_nat (length to) in
  let mLen := Z.of_nat (length msg) in
  md_ok hash -> md_ok mgf_hash ->
  malloc (emLen - 1 - hLen) = true ->
  malloc (emLen - 1 - hLen + (emLen - 1)) = true ->
  hLen <= Z.of_nat (length entropy) ->
  (Z.to_nat emLen <= fuel)%nat ->
  mLen <= emLen - 2 * hLen - 2 ->
  Z.of_nat (length out) < mLen ->
  exists em,
    RSA_padding_add_PKCS1_OAEP_mgf1 sha1 malloc fuel entropy to msg label
      md mgf1md
    = Some {| ret := 1; reason := None; to_after := em |}
    /\ RSA_padding_check_PKCS1_OAEP_mgf1 sha1 malloc fuel out (skipn 1 em)
         emLen label md mgf1md
       = Some {| ret := -1; reason := Some RSA_R_DATA_TOO_LARGE;
                 to_after := out |}.
Proof.
  intros hash mgf_hash hLen emLen mLen Hh Hm Hmal1 Hmal2 Hent Hfuel Hfit
    Hshort.
  destruct (decode_encoded_block sha1 malloc md mgf1md Hh Hm fuel entropy to
              msg label out Hmal1 Hmal2 Hent Hfuel Hfit)
    as (em & Henc & _ & _ & Hdec).
  exists em. split; [exact Henc|]. subst emLen mLen. rewrite Hdec.
  now rewrite (proj2 (Z.ltb_lt _ _) Hshort).
Qed.

Lemma OAEP_decode_short_buffer_witness :
  exists em,
    RSA_padding_add_PKCS1_OAEP_mgf1 toy_md (fun _ => true) 8 [17; 34]
      [9; 9; 9; 9; 9; 9; 9; 9] [72; 105] [] (Some toy_md) None
    = Some {| ret := 1; reason := None; to_after := em |}
    /\ RSA_padding_check_PKCS1_OAEP_mgf1 toy_md (fun _ => true) 8 [7]
         (skipn 1 em) 8 [] (Some toy_md) None
       = Some {| ret := -1; reason := Some RSA_R_DATA_TOO_LARGE;
                 to_after := [7] |}.
Proof.
  exact (OAEP_decode_short_buffer toy_md (fun _ => true) 8 [17; 34]
           [9; 9; 9; 9; 9; 9; 9; 9] [72; 105] [] [7] (Some toy_md) None
           toy_md_ok toy_md_ok eq_refl eq_refl
           ltac:(cbn; lia) ltac:(cbn; lia) ltac:(cbn; lia) ltac:(cbn; lia)).
Defined.

(** X6.  With digests that behave: a block encoded under one label and
    decoded under a label with a different hash is refused with
    [RSA_R_OAEP_DECODING_ERROR], and the output buffer is not written. *)
Theorem OAEP_label_binding (sha1 : EVP_MD) (malloc : Z -> bool)
    (fuel : nat) (entropy to msg label label' out : list Z)
    (md mgf1md : option EVP_MD) :
  let hash := match md with Some m => m | None => sha1 end in
  let mgf_hash := match mgf1md with Some m => m | None => hash end in
  let hLen := EVP_MD_size hash in
  let emLen := Z.of_nat (length to) in
  let mLen := Z.of_nat (length msg) in
  md_ok hash -> md_ok mgf_hash ->
  malloc (emLen - 1 - hLen) = true ->
  malloc (emLen - 1 - hLen + (emLen - 1)) = true ->
  hLen <= Z.of_nat (length entropy) ->
  (Z.to_nat emLen <= fuel)%nat ->
  mLen <= emLen - 2 * hLen - 2 ->
  digest_of hash label <> digest_of hash label' ->
  exists em,
    RSA_padding_add_PKCS1_OAEP_mgf1 sha1 malloc fuel entropy to msg label
      md mgf1md
    = Some {| ret := 1; reason := None; to_after := em |}
    /\ RSA_padding_check_PKCS1_OAEP_mgf1 sha1 malloc fuel out (skipn 1 em)
         emLen label' md mgf1md
       = Some (decoding_err out).
Proof.
  intros hash mgf_hash hLen emLen mLen Hh Hm Hmal1 Hmal2 Hent Hfuel Hfit
    Hlabel.
  assert (Hpos : 0 < hLen) by apply Hh.
  destruct (decode_encoded_block sha1 malloc md mgf1md Hh Hm fuel entropy to
              msg label out Hmal1 Hmal2 Hent Hfuel Hfit)
    as (em & Henc & Lem & EDB & _).
  fold hash mgf_hash hLen emLen mLen in EDB.
  exists em. split; [exact Henc|].
  assert (Epad : oaep_pad (skipn 1 em) emLen = skipn 1 em).
  { unfold oaep_pad. rewrite length_skipn.
    replace (emLen - 1 - Z.of_nat (length em - 1)) with 0 by lia.
    reflexivity. }
  rewrite decode_unmask; try assumption; try (fold hash; fold hLen; lia).
  fold hash. fold mgf_hash. fold hLen. rewrite Epad, EDB.
  pose proof (md_ok_length hash label Hh) as L1.
  pose proof (md_ok_length hash label' Hh) as L2.
  fold hLen in L1, L2.
  destruct (Z.eqb_spec
              (timingsafe_memcmp
                 (digest_of hash label
                    ++ repeat 0 (Z.to_nat (emLen - mLen - 2 * hLen - 2))
                    ++ 1 :: msg)
                 (digest_of hash label') (Z.to_nat hLen)) 0) as [E|_];
    [|reflexivity].
  apply timingsafe_memcmp_eq in E; [|rewrite length_app; lia | lia].
  rewrite firstn_app in E.
  rewrite (firstn_all2 (n := Z.to_nat hLen) (digest_of hash label)) in E
    by lia.
  rewrite (firstn_all2 (n := Z.to_nat hLen) (digest_of hash label')) in E
    by lia.
  replace (Z.to_nat hLen - length (digest_of hash label))%nat with 0%nat
    in E by lia.
  cbn [firstn] in E. rewrite app_nil_r in E. contradiction.
Qed.

Lemma OAEP_label_binding_witness :
  exists em,
    RSA_padding_add_PKCS1_OAEP_mgf1 toy_md (fun _ => true) 8 [17; 34]
      [9; 9; 9; 9; 9; 9; 9; 9] [72; 105] [] (Some toy_md) None
    = Some {| ret := 1; reason := None; to_after := em |}
    /\ RSA_padding_check_PKCS1_OAEP_mgf1 toy_md (fun _ => true) 8 [7; 7]
         (skipn 1 em) 8 [65] (Some toy_md) None
       = Some (decoding_err [7; 7]).
Proof.
  refine (OAEP_label_binding toy_md (fun _ => true) 8 [17; 34]
            [9; 9; 9; 9; 9; 9; 9; 9] [72; 105] [] [65] [7; 7] (Some toy_md)
            None toy_md_ok toy_md_ok eq_refl eq_refl
            ltac:(cbn; lia) ltac:(cbn; lia) ltac:(cbn; lia) _).
  vm_compute. discriminate.
Defined.

(** X7.  The plain entry points agree with each other: with a SHA-1 that
    behaves, what [RSA_padding_add_PKCS1_OAEP] encodes,
    [RSA_padding_check_PKCS1_OAEP] decodes (fed the block without its
    leading zero byte) to the same message. *)
Theorem OAEP_plain_roundtrip (sha1 : EVP_MD) (malloc : Z -> bool)
    (fuel : nat) (entropy to msg label out : list Z) :
  let hLen := EVP_MD_size sha1 in
  let emLen := Z.of_nat (length to) in
  let mLen := Z.of_nat (length msg) in
  md_ok sha1 ->
  malloc (emLen - 1 - hLen) = true ->
  malloc (emLen - 1 - hLen + (emLen - 1)) = true ->
  hLen <= Z.of_nat (length entropy) ->
  (Z.to_nat emLen <= fuel)%nat ->
  mLen <= emLen - 2 * hLen - 2 ->
  mLen <= Z.of_nat (length out) ->
  exists em,
    RSA_padding_add_PKCS1_OAEP sha1 malloc fuel entropy to msg label
    = Some {| ret := 1; reason := None; to_after := em |}
    /\ RSA_padding_check_PKCS1_OAEP sha1 malloc fuel out (skipn 1 em) emLen
         label
       = Some {| ret := mLen; reason := None;
                 to_after := msg ++ skipn (length msg) out |}.
Proof.
  intros hLen emLen mLen Hok Hmal1 Hmal2 Hent Hfuel Hfit Hout.
  destruct (decode_encoded_block sha1 malloc None None Hok Hok fuel entropy
              to msg label out Hmal1 Hmal2 Hent Hfuel Hfit)
    as (em & Henc & _ & _ & Hdec).
  exists em. split; [exact Henc|].
  unfold RSA_padding_check_PKCS1_OAEP. subst emLen mLen. rewrite Hdec.
  now rewrite (proj2 (Z.ltb_ge _ _) Hout).
Qed.

Lemma OAEP_plain_roundtrip_witness :
  exists em,
    RSA_padding_add_PKCS1_OAEP toy_md (fun _ => true) 8 [17; 34]
      [9; 9; 9; 9; 9; 9; 9; 9] [72; 105] []
    = Some {| ret := 1; reason := None; to_after := em |}
    /\ RSA_padding_check_PKCS1_OAEP toy_md (fun _ => true) 8 [0; 0; 0]
         (skipn 1 em) 8 []
       = Some {| ret := 2; reason := None; to_after := [72; 105; 0] |}.
Proof.
  exact (OAEP_plain_roundtrip toy_md (fun _ => true) 8 [17; 34]
           [9; 9; 9; 9; 9; 9; 9; 9] [72; 105] [] [0; 0; 0] toy_md_ok
           eq_refl eq_refl
           ltac:(cbn; lia) ltac:(cbn; lia) ltac:(cbn; lia) ltac:(cbn; lia)).
Defined.

(** X8.  The decoder reads its input as a number: zero bytes in front of
    the input change nothing, as long as the input still fits the block of
    [num - 1] bytes.  This holds for every digest, allocator and fuel. *)
Theorem OAEP_decode_leading_zeros (sha1 : EVP_MD) (malloc : Z -> bool)
    (fuel : nat) (to from : list Z) (num : Z) (param : list Z)
    (md mgf1md : option EVP_MD) (j : nat) :
  Z.of_nat j + Z.of_nat (length from) <= num - 1 ->
  RSA_padding_check_PKCS1_OAEP_mgf1 sha1 malloc fuel to (repeat 0 j ++ from)
    num param md mgf1md
  = RSA_padding_check_PKCS1_OAEP_mgf1 sha1 malloc fuel to from num param
      md mgf1md.
Proof.
  intros Hfit. unfold RSA_padding_check_PKCS1_OAEP_mgf1.
  rewrite length_app, repeat_length.
  set (flen := Z.of_nat (length from)) in *.
  destruct (num - 1 <? _); [reflexivity|].
  rewrite (proj2 (Z.ltb_ge (num - 1 - Z.of_nat (j + length from)) 0))
    by (fold flen; lia).
  rewrite (proj2 (Z.ltb_ge (num - 1 - flen) 0)) by lia.
  cbv beta iota zeta.
  assert (E : repeat 0 (Z.to_nat (num - 1 - Z.of_nat (j + length from)))
                ++ load (repeat 0 j ++ from) 0 (Z.of_nat (j + length from))
              = repeat 0 (Z.to_nat (num - 1 - flen)) ++ load from 0 flen).
  { rewrite !load_all
      by (try reflexivity; now rewrite ?length_app, ?repeat_length).
    rewrite app_assoc, <- repeat_app. do 2 f_equal. fold flen. lia. }
  now rewrite E.
Qed.

Lemma OAEP_decode_leading_zeros_witness :
  RSA_padding_check_PKCS1_OAEP_mgf1 toy_md (fun _ => true) 8 [0; 0]
    (repeat 0 2 ++ [1; 2; 3; 4]) 8 [] (Some toy_md) None
  = RSA_padding_check_PKCS1_OAEP_mgf1 toy_md (fun _ => true) 8 [0; 0]
      [1; 2; 3; 4] 8 [] (Some toy_md) None.
Proof.
  apply (OAEP_decode_leading_zeros toy_md (fun _ => true) 8 [0; 0]
           [1; 2; 3; 4] 8 [] (Some toy_md) None 2).
  cbn. lia.
Defined.

(** X9.  A successful decode never returns more than
    [num - 2 * mdlen - 2] bytes, the longest message the encoder accepts
    for a block of [num] bytes, and only for an input of at most [num - 1]
    bytes.  This holds for every digest, allocator and fuel. *)
Theorem OAEP_decode_length_bound (sha1 : EVP_MD) (malloc : Z -> bool)
    (fuel : nat) (to from : list Z) (num : Z) (param : list Z)
    (md mgf1md : option EVP_MD) (r : padding_result) :
  let hash := match md with Some m => m | None => sha1 end in
  let hLen := EVP_MD_size hash in
  RSA_padding_check_PKCS1_OAEP_mgf1 sha1 malloc fuel to from num param
    md mgf1md = Some r ->
  0 <= ret r ->
  ret r <= num - 2 * hLen - 2 /\ Z.of_nat (length from) <= num - 1.
Proof.
  intros hash hLen Hdec Hret.
  destruct (decode_success_inv sha1 malloc fuel to from num param md mgf1md
              r Hdec Hret) as (_ & Hf & _ & Hb).
  now split.
Qed.

Lemma OAEP_decode_length_bound_witness :
  2 <= 8 - 2 * 2 - 2 /\ Z.of_nat (length [92; 111; 51; 51; 105; 124; 2]) <= 7.
Proof.
  apply (OAEP_decode_length_bound toy_md (fun _ => true) 8 [0; 0; 0]
           [92; 111; 51; 51; 105; 124; 2] 8 [] (Some toy_md) None
           {| ret := 2; reason := None; to_after := [72; 105; 0] |}).
  - reflexivity.
  - cbn. lia.
Defined.

(** X10.  With digests that behave, the decoder accepts nothing but OAEP
    encodings: when it succeeds, its input, zero-padded on the left to
    [num] bytes, is the encoding of exactly the returned message under the
    given label, for some seed of [hLen] bytes. *)
Theorem OAEP_decode_sound (sha1 : EVP_MD) (malloc : Z -> bool)
    (fuel : nat) (to from : list Z) (num : Z) (param : list Z)
    (md mgf1md : option EVP_MD) (r : padding_result) :
  let hash := match md with Some m => m | None => sha1 end in
  let mgf_hash := match mgf1md with Some m => m | None => hash end in
  let hLen := EVP_MD_size hash in
  md_ok hash -> md_ok mgf_hash ->
  (Z.to_nat num <= fuel)%nat ->
  RSA_padding_check_PKCS1_OAEP_mgf1 sha1 malloc fuel to from num param
    md mgf1md = Some r ->
  0 <= ret r ->
  exists seed,
    Z.of_nat (length seed) = hLen
    /\ repeat 0 (Z.to_nat (num - Z.of_nat (length from))) ++ from
       = oaep_encode_spec hash mgf_hash
           (firstn (Z.to_nat (ret r)) (to_after r)) param seed num.
Proof.
  intros hash mgf_hash hLen Hh Hm Hfuel Hdec Hret.
  assert (Hpos : 0 < hLen) by apply Hh.
  destruct (decode_success_inv sha1 malloc fuel to from num param md mgf1md
              r Hdec Hret) as (Hnum & Hflen & Hmal & _).
  fold hash in Hnum, Hmal. fold hLen in Hnum, Hmal.
  rewrite decode_unmask in Hdec; try assumption.
  fold hash in Hdec. fold mgf_hash in Hdec. fold hLen in Hdec.
  set (P := oaep_pad from num) in *.
  set (DB := oaep_DB hash mgf_hash P num) in *.
  set (dblen := num - 1 - hLen) in *.
  assert (LP : Z.of_nat (length P) = num - 1)
    by (apply oaep_pad_length; lia).
  assert (LDB : Z.of_nat (length DB) = dblen)
    by (apply oaep_DB_length; assumption).
  pose proof (md_ok_length hash param Hh) as Llh. fold hLen in Llh.
  destruct (Z.eqb_spec (timingsafe_memcmp DB (digest_of hash param)
                          (Z.to_nat hLen)) 0) as [Ecmp|_];
    [|injection Hdec as <-; cbn in Hret; lia].
  destruct (num - 1 - Z.of_nat (length from) <? 0);
    [injection Hdec as <-; cbn in Hret; lia|].
  cbn [negb orb] in Hdec.
  apply timingsafe_memcmp_eq in Ecmp; [|lia..].
  rewrite (firstn_all2 (n := Z.to_nat hLen) (digest_of hash param)) in Ecmp
    by lia.
  assert (Lsk : length (skipn (Z.to_nat hLen) DB) = Z.to_nat (dblen - hLen))
    by (rewrite length_skipn; lia).
  rewrite (scan_zeros_first_nonzero _ DB hLen ltac:(lia) Lsk) in Hdec.
  destruct (first_nonzero (skipn (Z.to_nat hLen) DB)) as [k|] eqn:Efn.
  2:{ rewrite (proj2 (Z.eqb_eq _ _)) in Hdec by lia.
      injection Hdec as <-; cbn in Hret; lia. }
  destruct (first_nonzero_Some _ _ Efn) as (Hk & _ & Hzeros).
  destruct (Z.eqb_spec (hLen + Z.of_nat k) dblen) as [?|_];
    [injection Hdec as <-; cbn in Hret; lia|].
  destruct (Z.eqb_spec (nth (Z.to_nat (hLen + Z.of_nat k)) DB 0) 1)
    as [Esep|_]; [|injection Hdec as <-; cbn in Hret; lia].
  cbn [negb orb] in Hdec.
  destruct (_ <? _); injection Hdec as <-; cbn [ret] in Hret; [lia|].
  cbn [ret to_after].
  set (m := load DB (hLen + Z.of_nat k + 1)
              (dblen - (hLen + Z.of_nat k + 1))).
  assert (Em : m = skipn (Z.to_nat hLen + k + 1) DB).
  { unfold m, load.
    replace (Z.to_nat (hLen + Z.of_nat k + 1))
      with (Z.to_nat hLen + k + 1)%nat by lia.
    apply firstn_all2. rewrite length_skipn. lia. }
  assert (Lm : Z.of_nat (length m) = dblen - (hLen + Z.of_nat k + 1))
    by (rewrite Em, length_skipn; lia).
  assert (Eout : firstn (Z.to_nat (dblen - (hLen + Z.of_nat k + 1)))
                   (store to 0 m) = m).
  { unfold store. cbn [Z.to_nat firstn app].
    rewrite firstn_app, firstn_all2 by lia.
    replace (Z.to_nat (dblen - (hLen + Z.of_nat k + 1)) - length m)%nat
      with 0%nat by lia.
    cbn [firstn]. apply app_nil_r. }
  rewrite Eout.
  assert (EDB : DB = digest_of hash param ++ repeat 0 k ++ [1] ++ m).
  { rewrite <- (firstn_skipn (Z.to_nat hLen) DB) at 1.
    rewrite Ecmp. f_equal.
    rewrite <- (firstn_skipn k (skipn (Z.to_nat hLen) DB)) at 1.
    rewrite Hzeros. f_equal.
    rewrite skipn_skipn.
    replace (k + Z.to_nat hLen)%nat with (Z.to_nat (hLen + Z.of_nat k))
      by lia.
    destruct (skipn (Z.to_nat (hLen + Z.of_nat k)) DB) as [|x l] eqn:Esk.
    - apply (f_equal (@length Z)) in Esk. rewrite length_skipn in Esk.
      cbn [length] in Esk. lia.
    - destruct (skipn_cons_inv _ _ _ _ Esk) as [Ex El].
      rewrite Esep in Ex. subst x. cbn [app]. f_equal.
      rewrite Em, <- El. f_equal. lia. }
  set (maskedSeed := firstn (Z.to_nat hLen) P).
  set (maskedDB := firstn (Z.to_nat dblen) (skipn (Z.to_nat hLen) P)).
  set (mgf1 := mgf1_spec (digest_of mgf_hash) (EVP_MD_size mgf_hash)).
  assert (Lmgf : forall s len, 0 <= len ->
            Z.of_nat (length (mgf1 s len)) = len).
  { intros s len Hlen. apply mgf1_spec_length; [apply Hm | assumption|].
    intros x. now apply md_ok_length. }
  assert (LmS : Z.of_nat (length maskedSeed) = hLen)
    by (unfold maskedSeed; rewrite length_firstn; lia).
  assert (LmD : Z.of_nat (length maskedDB) = dblen)
    by (unfold maskedDB; rewrite length_firstn, length_skipn; lia).
  set (seed := xor_bytes maskedSeed (mgf1 maskedDB hLen)).
  assert (Lseed : Z.of_nat (length seed) = hLen).
  { unfold seed. rewrite xor_bytes_length; [assumption|].
    apply Nat2Z.inj. rewrite Lmgf; lia. }
  assert (EDB' : DB = xor_bytes maskedDB (mgf1 seed dblen)) by reflexivity.
  exists seed. split; [assumption|].
  unfold oaep_encode_spec. cbv zeta. fold hLen. fold mgf1.
  replace (num - Z.of_nat (length m) - 2 * hLen - 2) with (Z.of_nat k)
    by lia.
  rewrite Nat2Z.id, <- EDB.
  replace (num - hLen - 1) with dblen by (unfold dblen; lia).
  assert (Ec1 : xor_bytes DB (mgf1 seed dblen) = maskedDB)
    by (rewrite EDB'; apply xor_bytes_cancel, Nat2Z.inj; rewrite Lmgf; lia).
  assert (Ec2 : xor_bytes seed (mgf1 maskedDB hLen) = maskedSeed)
    by (apply xor_bytes_cancel, Nat2Z.inj; rewrite Lmgf; lia).
  subst mgf1. cbv beta in Ec1, Ec2. rewrite Ec1, Ec2.
  unfold maskedSeed, maskedDB.
  rewrite (firstn_all2 (n := Z.to_nat dblen))
    by (rewrite length_skipn; lia).
  rewrite firstn_skipn.
  unfold P, oaep_pad.
  rewrite (proj2 (Z.ltb_ge _ _)) by lia.
  replace (Z.to_nat (num - Z.of_nat (length from)))
    with (S (Z.to_nat (num - 1 - Z.of_nat (length from)))) by lia.
  reflexivity.
Qed.

Lemma OAEP_decode_sound_witness :
  exists seed,
    Z.of_nat (length seed) = 2
    /\ repeat 0 (Z.to_nat (8 - 7)) ++ [92; 111; 51; 51; 105; 124; 2]
       = oaep_encode_spec toy_md toy_md (firstn 2 [72; 105; 0]) [] seed 8.
Proof.
  apply (OAEP_decode_sound toy_md (fun _ => true) 8 [0; 0; 0]
           [92; 111; 51; 51; 105; 124; 2] 8 [] (Some toy_md) None
           {| ret := 2; reason := None; to_after := [72; 105; 0] |}
           toy_md_ok toy_md_ok).
  - cbn. lia.
  - reflexivity.
  - cbn. lia.
Defined.

(** X11.  With a digest that behaves, an encoder whose allocation of the
    mask buffer fails returns 0 with [ERR_R_MALLOC_FAILURE] after it has
    written the output buffer: the caller is left with the seed and the
    unmasked data block, message included, in the clear. *)
Theorem OAEP_encode_malloc_failure (sha1 : EVP_MD) (malloc : Z -> bool)
    (fuel : nat) (entropy to from param : list Z)
    (md mgf1md : option EVP_MD) :
  let hash := match md with Some m => m | None => sha1 end in
  let hLen := EVP_MD_size hash in
  let tlen := Z.of_nat (length to) in
  let flen := Z.of_nat (length from) in
  md_ok hash ->
  malloc (tlen - 1 - hLen) = false ->
  hLen <= Z.of_nat (length entropy) ->
  flen <= tlen - 2 * hLen - 2 ->
  RSA_padding_add_PKCS1_OAEP_mgf1 sha1 malloc fuel entropy to from param
    md mgf1md
  = Some {| ret := 0; reason := Some ERR_R_MALLOC_FAILURE;
            to_after :=
              [0] ++ firstn (Z.to_nat hLen) entropy
                ++ digest_of hash param
                ++ repeat 0 (Z.to_nat (tlen - flen - 2 * hLen - 2))
                ++ [1] ++ from |}.
Proof.
  intros hash hLen tlen flen Hh Hmal Hent Hfit.
  assert (Hpos : 0 < hLen) by apply Hh.
  unfold RSA_padding_add_PKCS1_OAEP_mgf1.
  fold hash. fold hLen. fold tlen. fold flen.
  rewrite Z.gtb_ltb, (proj2 (Z.ltb_ge _ _)) by lia.
  rewrite (proj2 (Z.ltb_ge _ _)) by lia.
  rewrite (md_ok_digest hash param Hh).
  rewrite (encode_layout to (digest_of hash param) from
             (firstn (Z.to_nat hLen) entropy) hLen (tlen - 1) flen);
    try reflexivity; try lia.
  - rewrite Hmal. cbn [negb].
    replace (tlen - 1 - flen - 2 * hLen - 1)
      with (tlen - flen - 2 * hLen - 2) by lia.
    reflexivity.
  - now apply md_ok_length.
  - rewrite length_firstn. lia.
Qed.

Lemma OAEP_encode_malloc_failure_witness :
  RSA_padding_add_PKCS1_OAEP_mgf1 toy_md (fun _ => false) 8 [17; 34]
    [9; 9; 9; 9; 9; 9; 9; 9] [72; 105] [] (Some toy_md) None
  = Some {| ret := 0; reason := Some ERR_R_MALLOC_FAILURE;
            to_after :=
              [0] ++ firstn (Z.to_nat 2) [17; 34]
                ++ digest_of toy_md []
                ++ repeat 0 (Z.to_nat (8 - 2 - 2 * 2 - 2))
                ++ [1] ++ [72; 105] |}.
Proof.
  apply (OAEP_encode_malloc_failure toy_md (fun _ => false) 8 [17; 34]
           [9; 9; 9; 9; 9; 9; 9; 9] [72; 105] [] (Some toy_md) None
           toy_md_ok eq_refl); cbn; lia.
Defined.

(** *** SM2 beyond the claims *)

(** What a signature that leaves the loop body is made of. *)
Lemma SM2_sig_gen_iter_equation (key : EC_KEY) (n e k : Z)
    (sig : ECDSA_SIG) :
  let group := EC_KEY_get0_group key in
  let dA := EC_KEY_get0_private_key key in
  0 < n ->
  SM2_sig_gen_iter key n e k = Signed sig ->
  exists x1,
    EC_POINT_get_affine_coordinates_GFp group (EC_POINT_mul group k None)
    = Some x1
    /\ sig_r sig = (e + x1) mod n
    /\ ((dA + 1) * sig_s sig) mod n = (k - dA * sig_r sig) mod n.
Proof.
  intros group dA Hn. unfold SM2_sig_gen_iter. fold group. fold dA.
  destruct (EC_POINT_get_affine_coordinates_GFp group
              (EC_POINT_mul group k None)) as [x1|]; [|discriminate].
  unfold BN_mod_add, BN_mod_mul. rewrite !BN_nnmod_pos by assumption.
  destruct (BN_is_zero _); [discriminate|].
  destruct (BN_cmp _ _ =? 0); [discriminate|].
  unfold BN_value_one.
  destruct (BN_mod_inverse (dA + 1) n) as [inv|] eqn:Hinv; [|discriminate].
  rewrite BN_nnmod_pos by assumption.
  intros [= <-]. cbn [sig_r sig_s]. exists x1.
  split; [reflexivity|]. split; [reflexivity|].
  destruct (BN_mod_inverse_sound _ _ _ Hinv) as [_ Einv].
  set (r := (e + x1) mod n).
  change (eqm n ((dA + 1) * ((inv * (k - dA * r mod n)) mod n))
            (k - dA * r)).
  rewrite (Zmod_eqm n (inv * _)), (Zmod_eqm n (dA * r)).
  transitivity (inv * (dA + 1) * (k - dA * r)); [apply eqm_of_eq; ring|].
  rewrite Einv. apply eqm_of_eq. ring.
Qed.

(** X12.  In a group of order [n], every signature [(r, s)] the generator
    returns was made in one turn from a nonce [k] in [[0, n - 1]] whose
    point [k * G] is finite with x-coordinate [x1]: [r = (e + x1) mod n]
    lies in [[1, n - 1]] with [r + k <> n], [s] lies in [[0, n - 1]], and
    [(1 + dA) * s = k - r * dA] modulo [n]. *)
Theorem SM2_sig_gen_signature_equation (key : EC_KEY) (e n : Z)
    (rng rng' : RNG) (sig : ECDSA_SIG) :
  let group := EC_KEY_get0_group key in
  let dA := EC_KEY_get0_private_key key in
  EC_GROUP_get_order group = Some n ->
  rand_ok rng ->
  SM2_sig_gen key e rng = (Sig sig, rng') ->
  exists k x1,
    0 <= k <= n - 1
    /\ EC_POINT_get_affine_coordinates_GFp group
         (EC_POINT_mul group k None) = Some x1
    /\ sig_r sig = (e + x1) mod n
    /\ 1 <= sig_r sig <= n - 1
    /\ sig_r sig + k <> n
    /\ 0 <= sig_s sig <= n - 1
    /\ ((1 + dA) * sig_s sig) mod n = (k - sig_r sig * dA) mod n.
Proof.
  intros group dA Hn Hrng Hsig. unfold SM2_sig_gen in Hsig.
  fold group in Hsig. rewrite Hn in Hsig.
  destruct (SM2_sig_gen_loop_signed _ _ _ _ _ _ Hrng Hsig) as (k & Hk & Hit).
  assert (Hn0 : 0 < n) by lia.
  destruct (SM2_sig_gen_iter_signed key n e k sig Hn0 Hit) as (Hr & Hrk & Hs).
  destruct (SM2_sig_gen_iter_equation key n e k sig Hn0 Hit)
    as (x1 & Hx1 & Er & Es).
  exists k, x1. repeat split; try assumption; try lia.
  fold dA in Es.
  now rewrite (Z.add_comm 1 dA), (Z.mul_comm (sig_r sig) dA).
Qed.

Lemma SM2_sig_gen_signature_equation_witness :
  exists k x1,
    0 <= k <= 19 - 1
    /\ EC_POINT_get_affine_coordinates_GFp (curve_group toy_curve)
         (EC_POINT_mul (curve_group toy_curve) k None) = Some x1
    /\ 11 = (5 + x1) mod 19
    /\ 1 <= 11 <= 19 - 1
    /\ 11 + k <> 19
    /\ 0 <= 6 <= 19 - 1
    /\ ((1 + 2) * 6) mod 19 = (k - 11 * 2) mod 19.
Proof.
  apply (SM2_sig_gen_signature_equation toy_key 5 19 (map answer [2]) []
           {| sig_r := 11; sig_s := 6 |} eq_refl).
  - apply rand_ok_answers.
  - reflexivity.
Defined.

(** X13.  In a group of order [n], with the public key [dA * G]:
    [SM2_do_verify] on a signature [(r, s)] that [SM2_do_sign] returned
    for the same digest, identity and message gives 1 when [s] is not
    zero and 0 when it is; it never gives -1. *)
Theorem SM2_do_sign_verify_iff
    (SM2_compute_userid_digest :
       EVP_MD -> list Z -> EC_KEY -> option (list Z))
    (key : EC_KEY) (n : Z) (digest : EVP_MD) (user_id msg : list Z)
    (rng rng' : RNG) (sig : ECDSA_SIG) :
  let group := EC_KEY_get0_group key in
  EC_GROUP_laws group n ->
  EC_GROUP_get_order group = Some n ->
  EC_KEY_get0_public_key key
  = EC_POINT_mul group (EC_KEY_get0_private_key key) None ->
  rand_ok rng ->
  SM2_do_sign SM2_compute_userid_digest key digest user_id msg rng
  = (Sig sig, rng') ->
  SM2_do_verify SM2_compute_userid_digest key digest sig user_id msg
  = if sig_s sig =? 0 then 0 else 1.
Proof.
  intros group laws Hn Hpub Hrng Hsign.
  destruct (Z.eqb_spec (sig_s sig) 0) as [Hs|Hs].
  - unfold SM2_do_sign, SM2_do_verify in *.
    destruct (SM2_compute_msg_hash _ digest key user_id msg) as [e|];
      [|discriminate].
    unfold SM2_sig_verify. fold group. rewrite Hn, Hs.
    rewrite !BN_cmp_lt. unfold BN_value_one.
    change (0 <? 1) with true. now rewrite orb_true_r.
  - exact (SM2_do_sign_verify_nonzero_s SM2_compute_userid_digest key n
             laws Hn Hpub digest user_id msg rng rng' sig Hrng Hsign Hs).
Qed.

Lemma SM2_do_sign_verify_iff_witness :
  SM2_do_verify toy_userid_digest toy_key toy_md
    {| sig_r := 10; sig_s := 0 |} [49; 50; 51; 52] [109; 115; 100]
  = 0.
Proof.
  exact (SM2_do_sign_verify_iff toy_userid_digest toy_key 19 toy_md
           [49; 50; 51; 52] [109; 115; 100] (map answer [1]) []
           {| sig_r := 10; sig_s := 0 |}
           toy_group_laws eq_refl eq_refl (rand_ok_answers [1]) eq_refl).
Defined.





(** X15.  With the allocations of [SM2_sig_verify] taken to succeed, as
    everywhere in this model (in the source a failed allocation returns 0
    with [ERR_R_MALLOC_FAILURE] or [ERR_R_BN_LIB] instead), in a group of
    order [n > 0]: [SM2_R_BAD_SIGNATURE] is reported exactly when [r] or
    [s] is outside [[1, n - 1]] or [r + s] is zero modulo [n]; the result
    is 0 with no reason on the error queue exactly when the signature
    passes these checks, the point [s * G + t * PA] is finite and the
    final comparison fails; and acceptance leaves no reason either. *)
Theorem SM2_sig_verify_reasons (key : EC_KEY) (sig : ECDSA_SIG) (e n : Z) :
  let group := EC_KEY_get0_group key in
  let r := sig_r sig in
  let s := sig_s sig in
  let t := (r + s) mod n in
  let P := EC_POINT_mul group s (Some (EC_KEY_get0_public_key key, t)) in
  let x1 := EC_POINT_affine_x group P in
  EC_GROUP_get_order group = Some n ->
  0 < n ->
  (snd (SM2_sig_verify key sig e) = Some SM2_R_BAD_SIGNATURE <->
   ~ (1 <= r <= n - 1) \/ ~ (1 <= s <= n - 1) \/ t = 0)
  /\ (SM2_sig_verify key sig e = (0, None) <->
      1 <= r <= n - 1 /\ 1 <= s <= n - 1 /\ t <> 0
      /\ EC_POINT_is_at_infinity group P = false
      /\ r <> (e + x1) mod n)
  /\ (fst (SM2_sig_verify key sig e) = 1 ->
      snd (SM2_sig_verify key sig e) = None).
Proof.
  intros group r s t P x1 Hord Hn. subst x1 P group.
  unfold SM2_sig_verify. rewrite Hord.
  fold r. fold s. rewrite !BN_cmp_lt, !BN_cmp_le. unfold BN_value_one.
  unfold BN_mod_add. rewrite BN_nnmod_pos by assumption.
  unfold BN_is_zero. fold t.
  destruct (Z.ltb_spec r 1); cbn [orb];
    [repeat split; cbn [fst snd]; try tauto; try discriminate;
     try lia; intros _; left; lia|].
  destruct (Z.ltb_spec s 1); cbn [orb];
    [repeat split; cbn [fst snd]; try tauto; try discriminate;
     try lia; intros _; right; left; lia|].
  destruct (Z.leb_spec n r); cbn [orb];
    [repeat split; cbn [fst snd]; try tauto; try discriminate;
     try lia; intros _; left; lia|].
  destruct (Z.leb_spec n s); cbn [orb];
    [repeat split; cbn [fst snd]; try tauto; try discriminate;
     try lia; intros _; right; left; lia|].
  destruct (Z.eqb_spec t 0);
    [repeat split; cbn [fst snd]; try tauto; try discriminate; try lia|].
  unfold EC_POINT_get_affine_coordinates_GFp.
  set (P := EC_POINT_mul _ s (Some (EC_KEY_get0_public_key key, t))).
  set (x1 := EC_POINT_affine_x _ P).
  destruct (EC_POINT_is_at_infinity _ P); cbv beta iota.
  - cbn [fst snd].
    split; [split; [discriminate | intros [?|[?|?]]; lia]|].
    split; [|discriminate].
    split; [discriminate | intros (_ & _ & _ & [=] & _)].
  - rewrite BN_nnmod_pos by assumption. rewrite BN_cmp_eq.
    destruct (Z.eqb_spec r ((e + x1) mod n)); cbn [fst snd].
    + split; [split; [discriminate | intros [?|[?|?]]; lia]|].
      split; [|reflexivity].
      split; [discriminate | intros (_ & _ & _ & _ & Hne); contradiction].
    + split; [split; [discriminate | intros [?|[?|?]]; lia]|].
      split; [|discriminate].
      split; [intros _; repeat split; lia || assumption | reflexivity].
Qed.

Lemma SM2_sig_verify_reasons_witness :
  snd (SM2_sig_verify toy_key {| sig_r := 10; sig_s := 0 |} 5)
  = Some SM2_R_BAD_SIGNATURE.
Proof.
  apply (proj1 (SM2_sig_verify_reasons toy_key {| sig_r := 10; sig_s := 0 |}
                  5 19 eq_refl ltac:(lia))).
  right. left. cbn. lia.
Defined.



(** *** Signatures as bytes *)

(** The two tests of [SM2_verify] on the re-encoded signature pass exactly
    when it is, byte for byte, the signature that came in. *)
Lemma SM2_verify_der_check (sig der : list Z) :
  negb (Z.of_nat (length der) =? Z.of_nat (length sig))
  || negb (memcmp sig der (Z.to_nat (Z.of_nat (length der))) =? 0) = false
  <-> sig = der.
Proof.
  rewrite Nat2Z.id. unfold memcmp. split.
  - intros H. apply orb_false_elim in H as [H1 H2].
    apply negb_false_iff in H1, H2.
    apply Z.eqb_eq, Nat2Z.inj in H1. apply Z.eqb_eq in H2.
    apply timingsafe_memcmp_eq in H2; [|lia..].
    rewrite H1 in H2 at 1. now rewrite !firstn_all in H2.
  - intros ->. rewrite Z.eqb_refl. cbn [negb orb].
    apply negb_false_iff, Z.eqb_eq, timingsafe_memcmp_eq; [lia..|].
    reflexivity.
Qed.

(** X17.  [SM2_verify] returns 1 exactly when the bytes parse to a
    signature whose encoding is these very bytes (no other encoding of
    the same numbers and nothing after them) and [SM2_sig_verify] accepts
    that signature for the digest read as a number. *)
Theorem SM2_verify_accepts_canonical
    (d2i_ECDSA_SIG : list Z -> option ECDSA_SIG)
    (i2d_ECDSA_SIG : ECDSA_SIG -> option (list Z))
    (dgst sig : list Z) (eckey : EC_KEY) :
  fst (SM2_verify d2i_ECDSA_SIG i2d_ECDSA_SIG dgst sig eckey) = 1
  <-> exists s,
        d2i_ECDSA_SIG sig = Some s
        /\ i2d_ECDSA_SIG s = Some sig
        /\ fst (SM2_sig_verify eckey s (OS2IP dgst)) = 1.
Proof.
  unfold SM2_verify.
  destruct (d2i_ECDSA_SIG sig) as [s|];
    [|cbn [fst]; split; [lia | intros (s & [=] & _)]].
  destruct (i2d_ECDSA_SIG s) as [der|] eqn:Ei.
  - destruct (negb _ || negb _) eqn:Echk.
    + cbn [fst]. split; [lia|].
      intros (s' & [= <-] & H & _). rewrite Ei in H. injection H as ->.
      rewrite (proj2 (SM2_verify_der_check sig sig) eq_refl) in Echk.
      discriminate.
    + apply SM2_verify_der_check in Echk. subst der.
      destruct (SM2_sig_verify eckey s (OS2IP dgst)) as [ret reason] eqn:Ev.
      cbn [fst]. split.
      * intros ->. exists s. now rewrite Ev.
      * intros (s' & [= <-] & _ & H). now rewrite Ev in H.
  - replace (negb (-1 =? Z.of_nat (length sig))) with true
      by (symmetry; apply negb_true_iff, Z.eqb_neq; lia).
    cbn [orb fst]. split; [lia|].
    intros (s' & [= <-] & H & _). rewrite Ei in H. discriminate.
Qed.


(** X19.  In a group of order [n], with the public key [dA * G] and a
    parser that reads back what the encoder wrote: the bytes [SM2_sign]
    returns with 1 parse to a signature [(r, s)], and [SM2_verify] on
    these bytes and the same digest gives 1 when [s] is not zero, and 0
    with [SM2_R_BAD_SIGNATURE] when it is. *)
Theorem SM2_sign_verify_roundtrip
    (d2i_ECDSA_SIG : list Z -> option ECDSA_SIG)
    (i2d_ECDSA_SIG : ECDSA_SIG -> option (list Z))
    (eckey : EC_KEY) (n : Z) (dgst der : list Z) (rng rng' : RNG)
    (reason : option (SM2_reason + SM2_asn1_reason)) :
  let group := EC_KEY_get0_group eckey in
  EC_GROUP_laws group n ->
  EC_GROUP_get_order group = Some n ->
  EC_KEY_get0_public_key eckey
  = EC_POINT_mul group (EC_KEY_get0_private_key eckey) None ->
  rand_ok rng ->
  (forall s bytes,
     i2d_ECDSA_SIG s = Some bytes -> d2i_ECDSA_SIG bytes = Some s) ->
  SM2_sign i2d_ECDSA_SIG dgst eckey rng
  = (Some {| sign_ret := 1; sign_sig := Some der; sign_reason := reason |},
     rng') ->
  exists s,
    d2i_ECDSA_SIG der = Some s
    /\ SM2_verify d2i_ECDSA_SIG i2d_ECDSA_SIG dgst der eckey
       = if sig_s s =? 0 then (0, Some (inl SM2_R_BAD_SIGNATURE))
         else (1, None).
Proof.
  intros group laws Hn Hpub Hrng Hcodec Hsign. unfold SM2_sign in Hsign.
  destruct (SM2_sig_gen eckey (OS2IP dgst) rng) as [[s|r|] rng''] eqn:Egen;
    [|discriminate..].
  destruct (i2d_ECDSA_SIG s) as [der'|] eqn:Ei; [|discriminate].
  injection Hsign as <- _ _.
  exists s. split; [now apply Hcodec|].
  unfold SM2_verify. rewrite (Hcodec s der' Ei), Ei.
  rewrite (proj2 (SM2_verify_der_check der' der') eq_refl).
  unfold SM2_sig_gen in Egen. fold group in Egen. rewrite Hn in Egen.
  destruct (SM2_sig_gen_loop_signed _ _ _ _ _ _ Hrng Egen) as (k & Hk & Hit).
  destruct (Z.eqb_spec (sig_s s) 0) as [Hs|Hs].
  - unfold SM2_sig_verify. fold group. rewrite Hn, Hs.
    rewrite !BN_cmp_lt. unfold BN_value_one.
    change (0 <? 1) with true. now rewrite orb_true_r.
  - now rewrite (SM2_sig_gen_iter_verifies eckey n (OS2IP dgst) laws Hn Hpub
                   k s Hk Hit Hs).
Qed.

Lemma toy_codec (s : ECDSA_SIG) (bytes : list Z) :
  toy_i2d s = Some bytes -> toy_d2i bytes = Some s.
Proof.
  unfold toy_i2d. destruct s as [r s].
  destruct (_ && _); [|discriminate]. now intros [= <-].
Qed.

Lemma SM2_sign_verify_roundtrip_witness :
  exists s,
    toy_d2i [11; 6] = Some s
    /\ SM2_verify toy_d2i toy_i2d [5] [11; 6] toy_key
       = if sig_s s =? 0 then (0, Some (inl SM2_R_BAD_SIGNATURE))
         else (1, None).
Proof.
  apply (SM2_sign_verify_roundtrip toy_d2i toy_i2d toy_key 19 [5] [11; 6]
           (map answer [2]) [] None toy_group_laws eq_refl eq_refl
           (rand_ok_answers [2]) toy_codec eq_refl).
Defined.

Lemma SM2_verify_accepts_canonical_witness :
  fst (SM2_verify toy_d2i toy_i2d [5] [11; 6] toy_key) = 1.
Proof.
  apply (proj2 (SM2_verify_accepts_canonical toy_d2i toy_i2d [5] [11; 6]
                  toy_key)).
  exists {| sig_r := 11; sig_s := 6 |}. repeat split.
Defined.


(** X20.  In a group of order [n], the digest counts modulo [n] only: two
    digests that are congruent modulo [n] are verified alike against every
    signature, and signed alike from the same random source. *)
Theorem SM2_digest_mod_order (key : EC_KEY) (sig : ECDSA_SIG) (e e' n : Z)
    (rng : RNG) :
  EC_GROUP_get_order (EC_KEY_get0_group key) = Some n ->
  e mod n = e' mod n ->
  SM2_sig_verify key sig e = SM2_sig_verify key sig e'
  /\ SM2_sig_gen key e rng = SM2_sig_gen key e' rng.
Proof.
  intros Hord He.
  assert (Hadd : forall x, BN_mod_add e x n = BN_mod_add e' x n).
  { intros x. unfold BN_mod_add, BN_nnmod.
    destruct (Z.eqb_spec n 0) as [|Hn]; [reflexivity|]. f_equal.
    pose proof (Z.div_mod e n Hn) as De.
    pose proof (Z.div_mod e' n Hn) as De'.
    destruct (Z.abs_spec n) as [[_ ->]|[_ ->]].
    - replace (e + x) with (e' + x + (e / n - e' / n) * n) by lia.
      apply Z.mod_add. assumption.
    - replace (e + x) with (e' + x + (e' / n - e / n) * - n) by lia.
      apply Z.mod_add. lia. }
  split.
  - unfold SM2_sig_verify. rewrite Hord.
    destruct (_ || _); [reflexivity|].
    destruct (_ || _); [reflexivity|].
    destruct (BN_mod_add (sig_r sig) _ _); [|reflexivity].
    destruct (BN_is_zero _); [reflexivity|].
    destruct (EC_POINT_get_affine_coordinates_GFp _ _); [|reflexivity].
    now rewrite Hadd.
  - unfold SM2_sig_gen. rewrite Hord.
    induction rng as [|d rng IH]; [reflexivity|].
    cbn [SM2_sig_gen_loop]. rewrite IH.
    replace (SM2_sig_gen_step key n e d) with (SM2_sig_gen_step key n e' d);
      [reflexivity|].
    unfold SM2_sig_gen_step. destruct (d n) as [k|]; [|reflexivity].
    unfold SM2_sig_gen_iter.
    destruct (EC_POINT_get_affine_coordinates_GFp _ _); [|reflexivity].
    now rewrite Hadd.
Qed.

Lemma SM2_digest_mod_order_witness :
  SM2_sig_verify toy_key {| sig_r := 11; sig_s := 6 |} 5
  = SM2_sig_verify toy_key {| sig_r := 11; sig_s := 6 |} 43116
  /\ SM2_sig_gen toy_key 5 [answer 2] = SM2_sig_gen toy_key 43116 [answer 2].
Proof.
  apply (SM2_digest_mod_order toy_key {| sig_r := 11; sig_s := 6 |} 5 43116
           19 [answer 2] eq_refl).
  reflexivity.
Defined.
